(** * UFL: expression base, Indexed node and Form aggregate

    A shallow embedding of [ufl/base.py], [ufl/indexed.py] and
    [ufl/form.py], followed by the properties proved about them.

    Python objects are modelled as values; where object identity matters
    (the zero-tensor cache) objects live in an explicit heap and are
    referred to by address.  Raising an exception is modelled by the
    [Raise] constructor of [result]. *)

From stdpp Require Import base option list strings gmap pretty.

Local Open Scope string_scope.
Local Open Scope list_scope.
Local Open Scope Z_scope.

(** ** Exceptions *)

(** [error(msg)] and a failing [ufl_assert(cond, msg)] raise a UFL
    exception that carries the message; indexing a list out of range raises
    [IndexError]. *)
Inductive exn : Type :=
| UFLException (msg : string)
| IndexError.

Inductive result (A : Type) : Type :=
| Ok (a : A)
| Raise (e : exn).
Arguments Ok {A} a.
Arguments Raise {A} e.

Definition bind {A B : Type} (r : result A) (k : A → result B) : result B :=
  match r with
  | Ok a => k a
  | Raise e => Raise e
  end.

Notation "'do' x <- r ; k" := (bind r (fun x => k))
  (at level 10, x name, r at level 100, k at level 200).
Notation "'check' r ; k" := (bind r (fun _ => k))
  (at level 10, r at level 100, k at level 200).

Definition error {A : Type} (msg : string) : result A :=
  Raise (UFLException msg).

Definition ufl_assert (cond : bool) (msg : string) : result unit :=
  if cond then Ok tt else error msg.

Definition is_Ok {A : Type} (r : result A) : Prop := ∃ a, r = Ok a.

(** ** base.py *)

(** The classes of the expression hierarchy.  [ZeroType] and [FloatValue]
    are the two terminals of [base.py]; every other class is either a
    [Terminal] subclass or an operator class, named by its class name. *)
Inductive PyType : Type :=
| TyZeroType
| TyFloatValue
| TyTerminal (cls : string)
| TyOperator (cls : string).

Global Instance PyType_eq_dec : EqDecision PyType.
Proof. solve_decision. Defined.

(** The scalar type [float_type] of [FloatValue._value] is kept abstract;
    only its comparisons are used. *)
Class PyFloat (F : Type) : Type := {
  float_eqb : F → F → bool;          (* float == float *)
  float_eq_int : F → Z → bool;       (* float == int   *)
}.

(** Expression nodes.  [Terminal cls r] is an instance of a terminal class
    [cls] that inherits [Terminal.__eq__], with [r] its [repr];
    [Operator cls ops] is an instance of an operator class [cls] that
    inherits [Expr.__eq__], with [ops] its [operands()]. *)
#[warnings="-register-all"]
Inductive Expr (F : Type) : Type :=
| ZeroType (_shape : list Z)
| FloatValue (_value : F)
| Terminal (cls : string) (repr_ : string)
| Operator (cls : string) (ops : list (Expr F)).
Arguments ZeroType {F} _shape.
Arguments FloatValue {F} _value.
Arguments Terminal {F} cls repr_.
Arguments Operator {F} cls ops.

(** Any Python object that may be handed to [__eq__]. *)
Inductive PyObject (F : Type) : Type :=
| ObjExpr (e : Expr F)
| ObjInt (z : Z)
| ObjFloat (f : F)
| ObjOther (repr_ : string).
Arguments ObjExpr {F} e.
Arguments ObjInt {F} z.
Arguments ObjFloat {F} f.
Arguments ObjOther {F} repr_.

Section base.
Context {F : Type} `{PyFloat F}.

(** [type(e)] *)
Definition type_of (e : Expr F) : PyType :=
  match e with
  | ZeroType _ => TyZeroType
  | FloatValue _ => TyFloatValue
  | Terminal cls _ => TyTerminal cls
  | Operator cls _ => TyOperator cls
  end.

(** [e.operands()]: a terminal never has operands. *)
Definition operands (e : Expr F) : list (Expr F) :=
  match e with
  | Operator _ ops => ops
  | _ => []
  end.

(** [ZeroType.shape], [FloatValue.shape] *)
Definition shape (e : Expr F) : option (list Z) :=
  match e with
  | ZeroType s => Some s
  | FloatValue _ => Some []
  | _ => None
  end.

(** Object identity [x is y].  Two identical objects are in particular
    the same value; the converse need not hold. *)
Variable is_ : Expr F → Expr F → bool.

(** [self == other] for two expression nodes, dispatching on the class
    of [self]:
    - [ZeroType.__eq__]: [isinstance(other, ZeroType)] and equal shapes;
    - [FloatValue.__eq__]: for a [FloatValue] the values are compared;
      an [Expr] is not a Python scalar;
    - [Terminal.__eq__]: same type, then equal [repr];
    - [Expr.__eq__]: same type, then [self.operands() == other.operands()],
      the comparison of two tuples, which holds when they have the same
      length and are pointwise identical or equal.
    The test [id(self) == other] of [Expr.__eq__] and [Terminal.__eq__]
    compares an integer with an object of the class of [self]; that
    comparison is never true, so the branch is not taken. *)
Fixpoint Expr_eq (self other : Expr F) : bool :=
  match self with
  | ZeroType s =>
      match other with
      | ZeroType s' => bool_decide (s = s')
      | _ => false
      end
  | FloatValue v =>
      match other with
      | FloatValue v' => float_eqb v v'
      | _ => false
      end
  | Terminal cls r =>
      match other with
      | Terminal cls' r' =>
          if negb (bool_decide (TyTerminal cls = TyTerminal cls')) then false
          else bool_decide (r = r')
      | _ => false
      end
  | Operator cls ops =>
      if negb (bool_decide (TyOperator cls = type_of other)) then false
      else
        (fix tuple_eq (xs ys : list (Expr F)) {struct xs} : bool :=
           match xs, ys with
           | [], [] => true
           | x :: xs', y :: ys' => (is_ x y || Expr_eq x y) && tuple_eq xs' ys'
           | _, _ => false
           end) ops (operands other)
  end.

(** [tuple.__eq__] on tuples of expression nodes. *)
Fixpoint tuple_eq (xs ys : list (Expr F)) : bool :=
  match xs, ys with
  | [], [] => true
  | x :: xs', y :: ys' => (is_ x y || Expr_eq x y) && tuple_eq xs' ys'
  | _, _ => false
  end.

(** [self == other] for an arbitrary object [other]. *)
Definition py_eq (self : Expr F) (other : PyObject F) : bool :=
  match other with
  | ObjExpr o => Expr_eq self o
  | ObjInt z =>
      match self with
      | FloatValue v => float_eq_int v z     (* is_python_scalar(other) *)
      | _ => false
      end
  | ObjFloat f =>
      match self with
      | FloatValue v => float_eqb v f        (* is_python_scalar(other) *)
      | _ => false
      end
  | ObjOther _ => false
  end.

(** The tuple hashed by [Expr.__hash__]:
    [(type(self), tuple((type(o), typetuple(o)) for o in self.operands()))]. *)
Definition typetuple (e : Expr F) : list PyType :=
  map type_of (operands e).

Definition hash_arg (self : Expr F) : PyType * list (PyType * list PyType) :=
  let tt := map (λ o, (type_of o, typetuple o)) (operands self) in
  (type_of self, tt).

(** Python's [hash] on such tuples. *)
Variable hash : PyType * list (PyType * list PyType) → Z.

Definition Expr_hash (self : Expr F) : Z := hash (hash_arg self).

(** *** The zero-tensor cache *)

(** The process state seen by [zero_tensor]: the objects allocated so
    far, addressed by position, and the module-level dictionary
    [_zero_cache] from shapes to the address of a [ZeroType] object. *)
Record Process : Type := {
  heap : list (Expr F);
  _zero_cache : gmap (list Z) nat;
}.

(** Evaluating [ZeroType(shape)] allocates a new object. *)
Definition new_ZeroType (shape : list Z) (p : Process) : nat * Process :=
  (length (heap p),
   {| heap := heap p ++ [ZeroType shape]; _zero_cache := _zero_cache p |}).

Definition zero_tensor (shape : list Z) (p : Process) : nat * Process :=
  match _zero_cache p !! shape with
  | Some z => (z, p)
  | None =>
      let '(z, p) := new_ZeroType shape p in
      (z, {| heap := heap p; _zero_cache := <[shape := z]> (_zero_cache p) |})
  end.

(** [zero()] *)
Definition zero (p : Process) : nat * Process := zero_tensor [] p.

(** What the rest of the program may do between two requests: ask for
    further zero tensors or allocate other objects.  Nothing else writes
    to [_zero_cache]. *)
Inductive action : Type :=
| CallZeroTensor (shape : list Z)
| Allocate (e : Expr F).

Definition perform (p : Process) (a : action) : Process :=
  match a with
  | CallZeroTensor s => snd (zero_tensor s p)
  | Allocate e => {| heap := heap p ++ [e]; _zero_cache := _zero_cache p |}
  end.

Definition run (acts : list action) (p : Process) : Process :=
  foldl perform p acts.

(** The state when the module has just been loaded: [_zero_cache = {}]. *)
Definition start (objs : list (Expr F)) : Process :=
  {| heap := objs; _zero_cache := ∅ |}.

(** [is_python_scalar(o)] *)
Definition is_python_scalar (o : PyObject F) : bool :=
  match o with
  | ObjInt _ | ObjFloat _ => true
  | _ => false
  end.

(** Every cached address holds the [ZeroType] object of its shape. *)
Definition cache_ok (p : Process) : Prop :=
  ∀ s z, _zero_cache p !! s = Some z → heap p !! z = Some (ZeroType s).
End base.

(** ** indexed.py *)

(** Python's [repr] protocol. *)
Class Repr (A : Type) : Type := repr : A → string.

(** A dynamically typed argument: an instance of the expected class, or
    some other object (given by its [repr]). *)
Inductive dyn (A : Type) : Type :=
| Inst (a : A)
| NotInst (repr_ : string).
Arguments Inst {A} a.
Arguments NotInst {A} repr_.

Definition isinstance {A : Type} (o : dyn A) : bool :=
  match o with
  | Inst _ => true
  | NotInst _ => false
  end.

Definition instance {A : Type} (o : dyn A) : option A :=
  match o with
  | Inst a => Some a
  | NotInst _ => None
  end.

Global Instance dyn_repr {A : Type} `{Repr A} : Repr (dyn A) := λ o,
  match o with
  | Inst a => repr a
  | NotInst r => r
  end.

(** Modelled from the spec: the index entities of [ufl.indexing], which is
    not part of the sources.  A symbolic index [Index] is identified by its
    count; a fixed index [FixedIndex] holds a concrete integer, read by
    [int(di)]; a multi-index is an ordered sequence of index entities with
    a known length. *)
Inductive IndexBase : Type :=
| Index (count : nat)
| FixedIndex (value : Z).

Global Instance IndexBase_eq_dec : EqDecision IndexBase.
Proof. solve_decision. Defined.

Global Instance IndexBase_countable : Countable IndexBase.
Proof.
  apply (inj_countable'
           (λ i, match i with Index c => inl c | FixedIndex v => inr v end)
           (λ s, match s with inl c => Index c | inr v => FixedIndex v end)).
  by intros [].
Defined.

Definition isinstance_Index (i : IndexBase) : bool :=
  match i with
  | Index _ => true
  | FixedIndex _ => false
  end.

Record MultiIndex : Type := { _indices : list IndexBase }.

(** Modelled from the spec: [unique_indices] of [ufl.indexutils], which is
    not part of the sources.  The free indices are the symbolic entries of
    the given sequence without duplicates: an index that occurs more than
    once in the sequence is a repeated (summed) index and is left out, so
    the entries kept are those that appear exactly once. *)
Definition occurrences (i : IndexBase) (indices : list IndexBase) : nat :=
  length (filter (λ j, j = i) indices).

Definition unique_indices (indices : list IndexBase) : list IndexBase :=
  filter (λ i, isinstance_Index i = true ∧ occurrences i indices = 1%nat) indices.

(** What [Indexed] asks of the expression it wraps. *)
Class UFLExpr (E : Type) : Type := {
  ufl_shape : E → list Z;
  free_indices : E → list IndexBase;
  index_dimensions : E → gmap IndexBase Z;
}.

(** [Expr.rank] *)
Definition rank {E : Type} `{UFLExpr E} (e : E) : nat := length (ufl_shape e).

Record Indexed (E : Type) : Type := {
  ufl_operands : E * MultiIndex;
  _free_indices : list IndexBase;
  _index_dimensions : gmap IndexBase Z;
}.
Arguments ufl_operands {E} _.
Arguments _free_indices {E} _.
Arguments _index_dimensions {E} _.

Definition nl : string := String (Ascii.ascii_of_nat 10) EmptyString.
Definition tab : string := String (Ascii.ascii_of_nat 9) EmptyString.

Section indexed.
Context {E : Type} `{UFLExpr E} `{Repr E} `{Repr MultiIndex}.

(** ["Invalid number of indices (%d) for tensor expression of rank %d:\n\t%r\n"
     % (len(multiindex), expression.rank(), expression)] *)
Definition rank_mismatch_msg (expression : E) (multiindex : MultiIndex) : string :=
  "Invalid number of indices (" +:+ pretty (length (_indices multiindex))
    +:+ ") for tensor expression of rank " +:+ pretty (rank expression)
    +:+ ":" +:+ nl +:+ tab +:+ repr expression +:+ nl.

(** The loop [for si, di in zip(shape, multiindex)]. *)
Fixpoint check_fixed_indices (pairs : list (Z * IndexBase)) : result unit :=
  match pairs with
  | [] => Ok tt
  | (si, di) :: pairs' =>
      check (match di with
             | FixedIndex v =>
                 if v >=? si then error "Fixed index out of range!" else Ok tt
             | Index _ => Ok tt
             end);
      check_fixed_indices pairs'
  end.

(** [dict((i, s) for (i, s) in zip(multiindex._indices, shape)
          if isinstance(i, Index))]: a later pair overrides an earlier
    one with the same key. *)
Definition dict_of_pairs (pairs : list (IndexBase * Z)) : gmap IndexBase Z :=
  foldl (λ d p, <[p.1 := p.2]> d) ∅ pairs.

(** [Indexed.__init__] *)
Definition Indexed_init (expression : dyn E) (multiindex : dyn MultiIndex)
  : result (Indexed E) :=
  do expression <-
    match expression with
    | Inst e => Ok e
    | NotInst r => error ("Expecting Expr instance, not " +:+ r +:+ ".")
    end;
  do multiindex <-
    match multiindex with
    | Inst m => Ok m
    | NotInst r => error ("Expecting MultiIndex instance, not " +:+ r +:+ ".")
    end;
  let shape := ufl_shape expression in
  check (if bool_decide (length shape ≠ length (_indices multiindex))
         then error (rank_mismatch_msg expression multiindex)
         else Ok tt);
  check check_fixed_indices (zip shape (_indices multiindex));
  let idims :=
    dict_of_pairs (filter (λ p, isinstance_Index p.1 = true)
                          (zip (_indices multiindex) shape)) in
  let idims := index_dimensions expression ∪ idims in   (* idims.update(...) *)
  let fi := unique_indices (free_indices expression ++ _indices multiindex) in
  Ok {| ufl_operands := (expression, multiindex);
        _free_indices := fi;
        _index_dimensions := idims |}.

(** [Indexed.free_indices], [Indexed.index_dimensions], [ufl_shape = ()] *)
Definition Indexed_free_indices (self : Indexed E) : list IndexBase :=
  _free_indices self.

Definition Indexed_index_dimensions (self : Indexed E) : gmap IndexBase Z :=
  _index_dimensions self.

Definition Indexed_ufl_shape (self : Indexed E) : list Z := [].

(** [Indexed.__repr__]: ["Indexed(%r, %r)" % self.ufl_operands] *)
Definition Indexed_repr (self : Indexed E) : string :=
  "Indexed(" +:+ repr (ufl_operands self).1 +:+ ", "
    +:+ repr (ufl_operands self).2 +:+ ")".

(** [Indexed.__getitem__]; [key] is any object, printed with [%r]. *)
Definition Indexed_getitem {A K : Type} `{Repr K} (self : Indexed E) (key : K)
  : result A :=
  error ("Attempting to index with " +:+ repr key
           +:+ ", but object is already indexed: " +:+ Indexed_repr self).

(** The node built once both checks have passed. *)
Definition Indexed_node (e : E) (m : MultiIndex) : Indexed E :=
  {| ufl_operands := (e, m);
     _free_indices := unique_indices (free_indices e ++ _indices m);
     _index_dimensions :=
       index_dimensions e ∪
         dict_of_pairs (filter (λ p, isinstance_Index p.1 = true)
                               (zip (_indices m) (ufl_shape e))) |}.

(** Every fixed entry is below the dimension it indexes. *)
Definition fixed_below (shape : list Z) (m : MultiIndex) : Prop :=
  ∀ i d v, shape !! i = Some d → _indices m !! i = Some (FixedIndex v) → v < d.

(** Every fixed entry lies in [0, dimension). *)
Definition fixed_in_range (shape : list Z) (m : MultiIndex) : Prop :=
  ∀ i d v, shape !! i = Some d → _indices m !! i = Some (FixedIndex v) → 0 ≤ v < d.

(** No fixed entry is negative. *)
Definition fixed_nonneg (m : MultiIndex) : Prop :=
  ∀ i v, _indices m !! i = Some (FixedIndex v) → 0 ≤ v.

(** C4 as the specification states it: when the ranks match, the
    constructor validates [0 <= v < d] on every fixed entry [v] at a
    dimension [d], so it succeeds exactly when all of them lie in
    [0, d). *)
Definition constructor_validates_range (e : E) (m : MultiIndex) : Prop :=
  length (_indices m) = length (ufl_shape e) →
  (is_Ok (Indexed_init (Inst e) (Inst m)) ↔ fixed_in_range (ufl_shape e) m).

Definition pair_below (p : Z * IndexBase) : Prop :=
  match p.2 with
  | FixedIndex v => v < p.1
  | Index _ => True
  end.

Global Instance pair_below_dec p : Decision (pair_below p).
Proof. unfold pair_below. destruct (p.2); apply _. Defined.
End indexed.

(** An [Indexed] node is itself an expression, of shape [()]. *)
Global Instance Indexed_UFLExpr {E : Type} : UFLExpr (Indexed E) := {
  ufl_shape := λ _, [];
  free_indices := _free_indices;
  index_dimensions := _index_dimensions;
}.

(** ** form.py *)

(** The arithmetic operators on integrands that [form.py] uses, [a + b]
    and [-a]; they are defined on expressions outside the sources given. *)
Class ExprAdd (E : Type) : Type := expr_add : E → E → E.
Class ExprNeg (E : Type) : Type := expr_neg : E → E.

(** [Form.__add__] uses measures as dictionary keys, that is, up to
    [Measure.__eq__] and [Measure.__hash__], which are defined outside the
    sources given: two measures are the same key when [measure_key]
    agrees on them.  The key is at least as fine as the domain: integrals
    of one domain may have different measures ([Form.integral_groups]). *)
Class MeasureKey (M K : Type) : Type := measure_key : M → K.

(** Modelled from the spec: [Integral] of [ufl.integral], which is not part
    of the sources.  An integral is an (integrand expression, measure)
    pair; [reconstruct] is its rebuild-with-new-integrand operation, which
    keeps the measure of the integral it is called on; negating an
    integral rebuilds it with the negated integrand. *)
Record Integral (E M : Type) : Type := {
  _integrand : E;
  _measure : M;
}.
Arguments _integrand {E M} _.
Arguments _measure {E M} _.

Definition integrand {E M : Type} (itg : Integral E M) : E := _integrand itg.

Definition measure {E M : Type} (itg : Integral E M) : M := _measure itg.

Definition reconstruct {E M : Type} (itg : Integral E M) (integrand : E)
  : Integral E M :=
  {| _integrand := integrand; _measure := _measure itg |}.

Definition Integral_neg {E M : Type} `{ExprNeg E} (itg : Integral E M)
  : Integral E M :=
  reconstruct itg (expr_neg (integrand itg)).

(** The fields of a [Form].  The three DOLFIN payload slots
    ([cell_domains] and the like) are set to [None] by the constructor and
    not touched again by this module; they are left out. *)
Record Form (E M FormData : Type) : Type := {
  _integrals : list (Integral E M);
  _str : option string;
  _repr : option string;
  _hash : option Z;
  _form_data : option FormData;
  _is_preprocessed : bool;
}.
Arguments _integrals {E M FormData} _.
Arguments _str {E M FormData} _.
Arguments _repr {E M FormData} _.
Arguments _hash {E M FormData} _.
Arguments _form_data {E M FormData} _.
Arguments _is_preprocessed {E M FormData} _.

Section form.
Context {E M FormData K : Type}.
Context `{ExprAdd E} `{ExprNeg E} `{Countable K} `{MeasureKey M K}.

Abbreviation Integral := (Integral E M).
Abbreviation Form := (Form E M FormData).

(** The object built by [Form.__init__]. *)
Definition new_Form (integrals : list Integral) : Form :=
  {| _integrals := integrals;
     _str := None;
     _repr := None;
     _hash := None;
     _form_data := None;
     _is_preprocessed := false |}.

(** [Form.__init__].  Once the assertion has passed, every element of
    [tuple(integrals)] is an [Integral]. *)
Definition Form_init (integrals : list (dyn Integral)) : result Form :=
  check ufl_assert (forallb isinstance integrals) "Expecting list of integrals.";
  Ok (new_Form (omap instance integrals)).

(** [Form.integrals()] and [Form.measures()] without a domain type. *)
Definition integrals (self : Form) : list Integral := _integrals self.

Definition measures (self : Form) : list M := measure <$> integrals self.

(** The dictionary key of the measure of an integral. *)
Definition key (itg : Integral) : K := measure_key (measure itg).

Definition keys (itgs : list Integral) : list K := key <$> itgs.

(** The first loop of [Form.__add__]:
    [for i, itg in enumerate(newintegrals)], from position [i] on. *)
Fixpoint build_measure2idx (i : nat) (newintegrals : list Integral)
    (measure2idx : gmap K nat) : result (gmap K nat) :=
  match newintegrals with
  | [] => Ok measure2idx
  | itg :: rest =>
      check ufl_assert (bool_decide (measure2idx !! key itg = None))
                       "Form invariant breached.";
      build_measure2idx (S i) rest (<[key itg := i]> measure2idx)
  end.

(** The body of the second loop, [for itg in other._integrals], on the
    pair of [newintegrals] and [measure2idx]. *)
Definition add_integral (st : list Integral * gmap K nat) (itg : Integral)
  : result (list Integral * gmap K nat) :=
  let '(newintegrals, measure2idx) := st in
  match measure2idx !! key itg with
  | None =>
      (* Append integral with new measure to list *)
      let idx := length newintegrals in
      Ok (newintegrals ++ [itg], <[key itg := idx]> measure2idx)
  | Some idx =>
      (* Accumulate integrands with same measure *)
      match newintegrals !! idx with
      | Some old =>
          let a := integrand old in
          let b := integrand itg in
          Ok (<[idx := reconstruct itg (expr_add a b)]> newintegrals, measure2idx)
      | None => Raise IndexError
      end
  end.

Fixpoint add_integrals (st : list Integral * gmap K nat)
    (others : list Integral) : result (list Integral * gmap K nat) :=
  match others with
  | [] => Ok st
  | itg :: rest =>
      do st' <- add_integral st itg;
      add_integrals st' rest
  end.

(** [Form.__add__] *)
Definition Form_add (self other : Form) : result Form :=
  let newintegrals := _integrals self in
  do measure2idx <- build_measure2idx 0 newintegrals ∅;
  do st <- add_integrals (newintegrals, measure2idx) (_integrals other);
  Form_init (Inst <$> st.1).

(** [Form.__neg__] *)
Definition Form_neg (self : Form) : result Form :=
  Form_init (Inst <$> (Integral_neg <$> _integrals self)).

(** [Form.__sub__] *)
Definition Form_sub (self other : Form) : result Form :=
  do nother <- Form_neg other;
  Form_add self nother.

(** The merge of two integral lists by measure, written without the
    dictionary: an integral of the left list whose measure key also occurs
    in the right list is replaced by the integral of the right list with
    that key, rebuilt over the sum of the two integrands; every other
    integral of the left list is kept; the integrals of the right list
    whose measure key is new follow in order. *)
Fixpoint lookup_key (k : K) (itgs : list Integral) : option Integral :=
  match itgs with
  | [] => None
  | itg :: rest => if decide (key itg = k) then Some itg else lookup_key k rest
  end.

Definition merge_integral (others : list Integral) (itg : Integral) : Integral :=
  match lookup_key (key itg) others with
  | Some itg' => reconstruct itg' (expr_add (integrand itg) (integrand itg'))
  | None => itg
  end.

Definition merged_integrals (itgs others : list Integral) : list Integral :=
  (merge_integral others <$> itgs)
    ++ filter (λ itg', key itg' ∉ keys itgs) others.

(** The loop invariant of [Form.__add__]: [measure2idx] maps the key of
    each measure in [newintegrals] to its position, and no key occurs
    twice. *)
Definition add_invariant (st : list Integral * gmap K nat) : Prop :=
  NoDup (keys st.1) ∧ ∀ k i, st.2 !! k = Some i ↔ keys st.1 !! i = Some k.

(** C2 as the specification states it: the constructor fails when two of
    the integrals share a measure. *)
Definition constructor_rejects_duplicates (itgs : list Integral) : Prop :=
  ¬ NoDup (keys itgs) → ¬ is_Ok (Form_init (Inst <$> itgs)).

(** [Form.form_data] *)
Definition form_data (self : Form) : option FormData := _form_data self.

(** The external preprocessing collaborator [preprocess] of
    [ufl.algorithms.preprocess]: given the form and the three keyword
    arguments it returns a metadata object, possibly changing the state
    of the world outside the form. *)
Context {Kwargs World : Type}.
Variable preprocess : Form → Kwargs → World → FormData * World.

(** [Form.compute_form_data] *)
Definition compute_form_data (self : Form) (kwargs : Kwargs) (w : World)
  : option FormData * Form * World :=
  let '(self, w) :=
    match _form_data self with
    | None =>
        let '(fd, w) := preprocess self kwargs w in
        ({| _integrals := _integrals self;
            _str := _str self;
            _repr := _repr self;
            _hash := _hash self;
            _form_data := Some fd;
            _is_preprocessed := _is_preprocessed self |}, w)
    | Some _ => (self, w)
    end in
  (form_data self, self, w).

(** [Form.__repr__] and [Form.signature], with the memo field [_repr]. *)
Context `{Repr Integral}.

Definition Form_repr (self : Form) : string * Form :=
  match _repr self with
  | None =>
      let r := "Form([" +:+ String.concat ", " (repr <$> _integrals self) +:+ "])" in
      (r, {| _integrals := _integrals self;
             _str := _str self;
             _repr := Some r;
             _hash := _hash self;
             _form_data := _form_data self;
             _is_preprocessed := _is_preprocessed self |})
  | Some r => (r, self)
  end.

Definition signature (self : Form) : string * Form := Form_repr self.
End form.

(** ** Concrete instances used in the examples *)

(** Modelled from the spec: [Measure] of [ufl.integral], which is not part
    of the sources.  A measure identifies an integration-domain family and
    a domain identifier and carries metadata.  Two measures are the same
    dictionary key when they agree in all three: measures of one domain
    that differ in their metadata are different measures. *)
Record Measure : Type := {
  domain_type : string;
  domain_id : Z;
  metadata : option string;
}.

Global Instance Measure_key : MeasureKey Measure (string * Z * option string) :=
  λ m, (domain_type m, domain_id m, metadata m).

(** Modelled from the spec: [a + b] on expressions builds the structural
    sum of the two operands, left operand first. *)
Global Instance Expr_add {F : Type} : ExprAdd (Expr F) :=
  λ a b, Operator "Sum" [a; b].

(** A scalar type with exact comparisons, for the examples. *)
Global Instance Z_PyFloat : PyFloat Z := {
  float_eqb := Z.eqb;
  float_eq_int := Z.eqb;
}.

(** A tensor-valued terminal for the examples: a named coefficient with a
    shape and no free indices of its own, unless given. *)
Record Tensor : Type := {
  tensor_name : string;
  tensor_shape : list Z;
  tensor_free_indices : list IndexBase;
}.

Global Instance Tensor_UFLExpr : UFLExpr Tensor := {
  ufl_shape := tensor_shape;
  free_indices := tensor_free_indices;
  index_dimensions := λ _, ∅;
}.

Global Instance Tensor_repr : Repr Tensor := tensor_name.

(** A vector with three components, and a vector-valued expression that
    already has the free index [Index 0]. *)
Definition vec3 : Tensor :=
  {| tensor_name := "v"; tensor_shape := [3]; tensor_free_indices := [] |}.

Definition vec3_i : Tensor :=
  {| tensor_name := "w"; tensor_shape := [3]; tensor_free_indices := [Index 0] |}.

(** Measures over the cell domain 0, without and with metadata, and over
    the exterior facet domain 0. *)
Definition dx0 : Measure :=
  {| domain_type := "cell"; domain_id := 0; metadata := None |}.

Definition dx0_meta : Measure :=
  {| domain_type := "cell"; domain_id := 0; metadata := Some "quadrature_degree=2" |}.

Definition ds0 : Measure :=
  {| domain_type := "exterior_facet"; domain_id := 0; metadata := None |}.

Definition coefficient (name : string) : Expr Z := Terminal "Coefficient" name.

Definition form_f_dx : Form (Expr Z) Measure unit :=
  new_Form [ {| _integrand := coefficient "f"; _measure := dx0 |} ].

Definition form_g_dx : Form (Expr Z) Measure unit :=
  new_Form [ {| _integrand := coefficient "g"; _measure := dx0 |} ].

Definition form_g_dx_meta : Form (Expr Z) Measure unit :=
  new_Form [ {| _integrand := coefficient "g"; _measure := dx0_meta |} ].

Definition form_h_ds : Form (Expr Z) Measure unit :=
  new_Form [ {| _integrand := coefficient "h"; _measure := ds0 |} ].

(** ** base.py: scalars, zero and helper functions *)

(** A Python numeric scalar, as accepted by [is_python_scalar]. *)
Inductive PyScalar (F : Type) : Type :=
| ScalarInt (z : Z)
| ScalarFloat (f : F).
Arguments ScalarInt {F} z.
Arguments ScalarFloat {F} f.

(** The conversion [float_type(value)] of a Python scalar. *)
Class FloatType (F : Type) : Type := float_type : PyScalar F → F.

(** An argument of [as_ufl]: an expression object (given by its address),
    a Python scalar, or any other object. *)
Inductive PyValue (F : Type) : Type :=
| ValExpr (addr : nat)
| ValScalar (s : PyScalar F)
| ValOther (repr_ : string).
Arguments ValExpr {F} addr.
Arguments ValScalar {F} s.
Arguments ValOther {F} repr_.

Section base_scalars.
Context {F : Type} `{PyFloat F} `{FloatType F}.
Variable is_ : Expr F → Expr F → bool.

(** [value == 0] for a Python scalar. *)
Definition scalar_eq_0 (value : PyScalar F) : bool :=
  match value with
  | ScalarInt z => z =? 0
  | ScalarFloat f => float_eq_int f 0
  end.

(** Evaluating [FloatValue(value)] allocates a new object. *)
Definition new_FloatValue (value : PyScalar F) (p : @Process F) : nat * @Process F :=
  (length (heap p),
   {| heap := heap p ++ [FloatValue (float_type value)];
      _zero_cache := _zero_cache p |}).

(** [float_value(value)] *)
Definition float_value (value : PyScalar F) (p : @Process F) : nat * @Process F :=
  if scalar_eq_0 value then zero p else new_FloatValue value p.

(** [is_zero(expression)] for an expression node:
    [isinstance(expression, ZeroType) or expression == 0]. *)
Definition is_zero (expression : Expr F) : bool :=
  match expression with
  | ZeroType _ => true
  | _ => false
  end || py_eq is_ expression (ObjInt 0).

(** [as_ufl(o)] *)
Definition as_ufl (o : PyValue F) (p : @Process F) : result (nat * @Process F) :=
  match o with
  | ValScalar s => Ok (float_value s p)                 (* is_python_scalar(o) *)
  | ValExpr a => check ufl_assert true "Expecting Python scalar or Expr instance.";
                 Ok (a, p)
  | ValOther _ => check ufl_assert false "Expecting Python scalar or Expr instance.";
                  Ok (0%nat, p)
  end.

(** What a program does to the process state when it also builds
    constants: requests for zero tensors, [float_value] calls and other
    allocations. *)
Inductive step : Type :=
| StepAction (a : @action F)
| StepFloatValue (value : PyScalar F).

Definition perform_step (p : @Process F) (s : step) : @Process F :=
  match s with
  | StepAction a => perform p a
  | StepFloatValue v => (float_value v p).2
  end.

Definition run_steps (steps : list step) (p : @Process F) : @Process F :=
  foldl perform_step p steps.
End base_scalars.

(** [Expr.free_index_dimensions]:
    [dict((i, default_dim) for i in self.free_indices())]. *)
Definition free_index_dimensions {E : Type} `{UFLExpr E} (self : E) (default_dim : Z)
  : gmap IndexBase Z :=
  dict_of_pairs ((λ i, (i, default_dim)) <$> free_indices self).

(** An [Indexed] node is printed by [Indexed.__repr__]. *)
Global Instance Indexed_Repr {E : Type} `{Repr E} `{Repr MultiIndex}
  : Repr (Indexed E) := Indexed_repr.

(** ** form.py: accessors, cell, groups, equality *)

(** The cell of an integrand, [itg.integrand().cell()], which may be
    [None], and [d.is_undefined()]; both are defined outside the sources
    given. *)
Class ExprCell (E Cell : Type) : Type := expr_cell : E → option Cell.
Class CellUndefined (Cell : Type) : Type := is_undefined : Cell → bool.

Section form_cell.
Context {E M FormData Cell : Type} `{ExprCell E Cell} `{CellUndefined Cell}.

(** The loop of [Form.cell], with [c] the best cell found so far. *)
Fixpoint cell_loop (c : option Cell) (itgs : list (Integral E M)) : option Cell :=
  match itgs with
  | [] => c
  | itg :: rest =>
      match expr_cell (integrand itg) with
      | Some d =>
          (* c = d: best we found so far *)
          if negb (is_undefined d)
          then Some d            (* break: the first fully defined cell *)
          else cell_loop (Some d) rest
      | None => cell_loop c rest
      end
  end.

(** [Form.cell] *)
Definition Form_cell (self : Form E M FormData) : option Cell :=
  cell_loop None (_integrals self).

(** The cells of the integrands that have one, in order. *)
Definition cells_of (itgs : list (Integral E M)) : list Cell :=
  omap (λ itg, expr_cell (integrand itg)) itgs.

Definition integrand_cells (self : Form E M FormData) : list Cell :=
  cells_of (_integrals self).
End form_cell.

Section form_domains.
Context {E FormData : Type}.

(** [Form.integrals(domain_type)] *)
Definition Form_integrals (self : Form E Measure FormData) (dt : option string)
  : list (Integral E Measure) :=
  match dt with
  | None => _integrals self
  | Some dt =>
      filter (λ itg, domain_type (measure itg) = dt) (_integrals self)
  end.

(** [Form.measures(domain_type)] *)
Definition Form_measures (self : Form E Measure FormData) (dt : option string)
  : list Measure :=
  measure <$> Form_integrals self dt.

(** [Form.domains(domain_type)] *)
Definition Form_domains (self : Form E Measure FormData) (dt : option string)
  : list (string * Z) :=
  (λ m, (domain_type m, domain_id m)) <$> Form_measures self dt.

(** The domain of an integral: the key used by [integral_groups]. *)
Definition domain_of (itg : Integral E Measure) : string * Z :=
  (domain_type (measure itg), domain_id (measure itg)).

(** The body of the loop of [Form.integral_groups]: the list stored under
    the key, or a new list when there is none (or an empty one), gets the
    integral appended and is the list stored under the key afterwards. *)
Definition group_integral (d : gmap (string * Z) (list (Integral E Measure)))
    (itg : Integral E Measure) : gmap (string * Z) (list (Integral E Measure)) :=
  let k := domain_of itg in
  let l := match d !! k with
           | Some (x :: l') => x :: l'
           | _ => []
           end in
  <[k := l ++ [itg]]> d.

(** [Form.integral_groups] *)
Definition integral_groups (self : Form E Measure FormData)
  : gmap (string * Z) (list (Integral E Measure)) :=
  foldl group_integral ∅ (Form_integrals self None).
End form_domains.

Section form_eq.
Context {E M FormData : Type} `{Repr (Integral E M)}.

(** The string that [Form.__repr__] computes. *)
Definition repr_of_integrals (itgs : list (Integral E M)) : string :=
  "Form([" +:+ String.concat ", " (repr <$> itgs) +:+ "])".

(** The memo field [_repr] is either unset or holds that string. *)
Definition repr_memo_ok (self : Form E M FormData) : Prop :=
  _repr self = None ∨ _repr self = Some (repr_of_integrals (_integrals self)).

(** [Form.__eq__]; evaluating [repr] fills the memo fields of both forms. *)
Definition Form_eq (self : Form E M FormData) (other : dyn (Form E M FormData))
  : bool * Form E M FormData * dyn (Form E M FormData) :=
  match other with
  | NotInst r => (false, self, NotInst r)       (* not isinstance(other, Form) *)
  | Inst other =>
      let '(rs, self) := Form_repr self in
      let '(ro, other) := Form_repr other in
      (bool_decide (rs = ro), self, Inst other)
  end.
End form_eq.

(** A cell type for the examples: a named cell, or an undefined
    placeholder. *)
Inductive ExampleCell : Type :=
| NamedCell (name : string)
| UndefinedCell.

Global Instance ExampleCell_undefined : CellUndefined ExampleCell := λ c,
  match c with
  | NamedCell _ => false
  | UndefinedCell => true
  end.

(** Integrands for the examples carry their cell, if any, next to a
    name. *)
Global Instance example_cell : ExprCell (string * option ExampleCell) ExampleCell :=
  λ e, e.2.

Global Instance Z_FloatType : FloatType Z := λ v,
  match v with
  | ScalarInt z => z
  | ScalarFloat f => f
  end.

(** Modelled from the spec: [-a] on expressions builds a negation node
    over the operand. *)
Global Instance Expr_neg {F : Type} : ExprNeg (Expr F) :=
  λ a, Operator "Neg" [a].

Global Instance Integral_repr_example : Repr (Integral (Expr Z) Measure) :=
  λ itg, match integrand itg with
         | Terminal _ r => r
         | _ => "?"
         end +:+ "*" +:+ domain_type (measure itg).

(** * Properties *)

(** ** base.py: equality and hash *)

Section base_props.
Context {F : Type} `{PyFloat F}.
Variable is_ : Expr F → Expr F → bool.
Hypothesis is_sound : ∀ x y, is_ x y = true → x = y.
Variable hash : PyType * list (PyType * list PyType) → Z.

Lemma Expr_eq_Operator cls ops other :
  Expr_eq is_ (Operator cls ops) other =
    if negb (bool_decide (TyOperator cls = type_of other)) then false
    else tuple_eq is_ ops (operands other).
Proof. reflexivity. Qed.

Lemma Expr_eq_type a b : Expr_eq is_ a b = true → type_of a = type_of b.
Proof.
  destruct a as [s|v|cls r|cls ops].
  - destruct b; simpl; congruence.
  - destruct b; simpl; congruence.
  - destruct b as [| |cls' r'|]; simpl; try congruence.
    case_bool_decide; simpl; congruence.
  - rewrite Expr_eq_Operator. case_bool_decide; simpl; congruence.
Qed.

Lemma tuple_eq_types xs ys :
  tuple_eq is_ xs ys = true → map type_of xs = map type_of ys.
Proof.
  revert ys. induction xs as [|x xs IH]; intros [|y ys]; simpl; try congruence.
  intros [Hxy Hrest]%andb_prop. f_equal; [|by apply IH].
  apply orb_prop in Hxy as [Hid|Heq].
  - by rewrite (is_sound _ _ Hid).
  - by apply Expr_eq_type.
Qed.

Lemma Expr_eq_typetuple a b : Expr_eq is_ a b = true → typetuple a = typetuple b.
Proof.
  unfold typetuple. destruct a as [s|v|cls r|cls ops].
  - destruct b; simpl; congruence.
  - destruct b; simpl; congruence.
  - destruct b; simpl; congruence.
  - rewrite Expr_eq_Operator. case_bool_decide; simpl; [|congruence].
    apply tuple_eq_types.
Qed.

Lemma tuple_eq_hash_arg xs ys :
  tuple_eq is_ xs ys = true →
  map (λ o, (type_of o, typetuple o)) xs = map (λ o, (type_of o, typetuple o)) ys.
Proof.
  revert ys. induction xs as [|x xs IH]; intros [|y ys]; simpl; try congruence.
  intros [Hxy Hrest]%andb_prop. f_equal; [|by apply IH].
  apply orb_prop in Hxy as [Hid|Heq].
  - by rewrite (is_sound _ _ Hid).
  - f_equal; [by apply Expr_eq_type | by apply Expr_eq_typetuple].
Qed.

Lemma Expr_eq_hash_arg a b : Expr_eq is_ a b = true → hash_arg a = hash_arg b.
Proof.
  intros Heq. unfold hash_arg. f_equal; [by apply Expr_eq_type|].
  destruct a as [s|v|cls r|cls ops].
  - destruct b; simpl in *; congruence.
  - destruct b; simpl in *; congruence.
  - destruct b; simpl in *; congruence.
  - rewrite Expr_eq_Operator in Heq. case_bool_decide; simpl in Heq; [|congruence].
    by apply tuple_eq_hash_arg.
Qed.

(** The hash of a [FloatValue] does not depend on its value. *)
Lemma FloatValue_hash_const (v1 v2 : F) :
  Expr_hash hash (FloatValue v1) = Expr_hash hash (FloatValue v2).
Proof. reflexivity. Qed.

(** Python's [hash] on numeric scalars. *)
Variable hash_scalar : PyObject F → Z.

(** C10.  Equal expression nodes have equal hashes: [Expr.__hash__]
    hashes the type of the node together with the types of its operands
    and of their operands, and [a == b] forces all of these to agree.
    The same does not carry over to the equality of a [FloatValue] with a
    Python scalar: the hash of a [FloatValue] ignores its value, so of two
    scalars with different hashes, each equal to some [FloatValue], at
    least one has a hash other than that of the [FloatValue] it equals. *)
Theorem Expr_eq_hash (a b : Expr F) :
  py_eq is_ a (ObjExpr b) = true →
  Expr_hash hash a = Expr_hash hash b
  ∧ (∀ a' b' : Expr F,
       type_of a' = type_of b' →
       map (λ o, (type_of o, map type_of (operands o))) (operands a')
         = map (λ o, (type_of o, map type_of (operands o))) (operands b') →
       Expr_hash hash a' = Expr_hash hash b')
  ∧ (∀ (v1 v2 : F) (s1 s2 : PyObject F),
       is_python_scalar s1 = true → is_python_scalar s2 = true →
       py_eq is_ (FloatValue v1) s1 = true →
       py_eq is_ (FloatValue v2) s2 = true →
       hash_scalar s1 ≠ hash_scalar s2 →
       Expr_hash hash (FloatValue v1) ≠ hash_scalar s1
       ∨ Expr_hash hash (FloatValue v2) ≠ hash_scalar s2).
Proof.
  simpl. intros Heq. split; [|split].
  - unfold Expr_hash. by rewrite (Expr_eq_hash_arg a b Heq).
  - intros a' b' Hty Hops. unfold Expr_hash, hash_arg, typetuple.
    by rewrite Hty, Hops.
  - intros v1 v2 s1 s2 _ _ _ _ Hne.
    destruct (decide (Expr_hash hash (FloatValue v1) = hash_scalar s1)) as [E1|]; [|by left].
    right. rewrite <- (FloatValue_hash_const v1 v2). congruence.
Qed.
End base_props.

(** ** base.py: the zero-tensor cache *)

Section zero_props.
Context {F : Type} `{PyFloat F}.
Variable is_ : Expr F → Expr F → bool.

Abbreviation Process := (@Process F).

Lemma zero_tensor_hit s z (p : Process) :
  _zero_cache p !! s = Some z → zero_tensor s p = (z, p).
Proof. intros Hc. unfold zero_tensor. by rewrite Hc. Qed.

Lemma zero_tensor_registers s (p : Process) :
  _zero_cache (zero_tensor s p).2 !! s = Some (zero_tensor s p).1.
Proof.
  unfold zero_tensor. destruct (_zero_cache p !! s) as [z|] eqn:Hc; simpl; [done|].
  apply lookup_insert_eq.
Qed.

Lemma zero_tensor_keeps s s' z (p : Process) :
  _zero_cache p !! s = Some z → _zero_cache (zero_tensor s' p).2 !! s = Some z.
Proof.
  intros Hc. unfold zero_tensor.
  destruct (_zero_cache p !! s') as [z'|] eqn:Hc'; simpl; [done|].
  rewrite lookup_insert_ne; [done|]. intros ->. congruence.
Qed.

Lemma zero_tensor_heap s z e (p : Process) :
  heap p !! z = Some e → heap (zero_tensor s p).2 !! z = Some e.
Proof.
  intros Hh. unfold zero_tensor.
  destruct (_zero_cache p !! s); simpl; [done|].
  by apply lookup_app_l_Some.
Qed.

Lemma zero_tensor_cache_ok s (p : Process) :
  cache_ok p → cache_ok (zero_tensor s p).2.
Proof.
  intros Hok s' z'. unfold zero_tensor.
  destruct (_zero_cache p !! s) as [z|] eqn:Hc; simpl; [apply Hok|].
  destruct (decide (s = s')) as [->|Hne].
  - rewrite lookup_insert_eq. intros [= <-].
    by rewrite lookup_app_r, Nat.sub_diag.
  - rewrite lookup_insert_ne by done. intros Hz.
    apply lookup_app_l_Some. by apply Hok.
Qed.

Lemma perform_keeps s z (p : Process) a :
  _zero_cache p !! s = Some z → _zero_cache (perform p a) !! s = Some z.
Proof. destruct a; simpl; [apply zero_tensor_keeps | done]. Qed.

Lemma perform_cache_ok (p : Process) a : cache_ok p → cache_ok (perform p a).
Proof.
  destruct a as [s|e]; simpl; [apply zero_tensor_cache_ok|].
  intros Hok s z Hz. simpl in *. apply lookup_app_l_Some. by apply Hok.
Qed.

Lemma perform_heap z e (p : Process) a :
  heap p !! z = Some e → heap (perform p a) !! z = Some e.
Proof.
  destruct a; simpl; [apply zero_tensor_heap|]. apply lookup_app_l_Some.
Qed.

Lemma run_keeps acts s z (p : Process) :
  _zero_cache p !! s = Some z → _zero_cache (run acts p) !! s = Some z.
Proof.
  revert p. induction acts as [|a acts IH]; intros p Hc; simpl; [done|].
  apply IH. by apply perform_keeps.
Qed.

Lemma run_cache_ok acts (p : Process) : cache_ok p → cache_ok (run acts p).
Proof.
  revert p. induction acts as [|a acts IH]; intros p Hok; simpl; [done|].
  apply IH. by apply perform_cache_ok.
Qed.

Lemma run_heap acts z e (p : Process) :
  heap p !! z = Some e → heap (run acts p) !! z = Some e.
Proof.
  revert p. induction acts as [|a acts IH]; intros p Hc; simpl; [done|].
  apply IH. by apply perform_heap.
Qed.

Lemma start_cache_ok (objs : list (Expr F)) : cache_ok (start objs).
Proof. intros s z. unfold start. simpl. by rewrite lookup_empty. Qed.

(** C5.  In a process that starts with an empty cache, whatever happens
    before and between two requests for the zero tensor of shape [s], both
    requests return the same object: the same address, holding
    [ZeroType(s)], which is equal to itself under [==]; the second
    request finds it in the cache and allocates nothing.  Two zero
    tensors of different shapes are never equal. *)
Theorem zero_tensor_canonical (objs : list (Expr F)) (before between : list action)
    (s : list Z) :
  let p0 := run before (start objs) in
  let '(z1, p1) := zero_tensor s p0 in
  let p2 := run between p1 in
  let '(z2, p3) := zero_tensor s p2 in
  z1 = z2
  ∧ p3 = p2
  ∧ _zero_cache p1 !! s = Some z1
  ∧ heap p1 !! z1 = Some (ZeroType s)
  ∧ heap p3 !! z2 = Some (ZeroType s)
  ∧ py_eq is_ (ZeroType s) (ObjExpr (ZeroType s)) = true
  ∧ (∀ s1 s2 : list Z,
       s1 ≠ s2 → py_eq is_ (ZeroType s1) (ObjExpr (ZeroType s2)) = false).
Proof.
  intros p0.
  pose proof (zero_tensor_registers s p0) as Hreg.
  assert (cache_ok (zero_tensor s p0).2) as Hok.
  { apply zero_tensor_cache_ok, run_cache_ok, start_cache_ok. }
  destruct (zero_tensor s p0) as [z1 p1] eqn:E1. simpl in Hreg, Hok.
  intros p2.
  pose proof (run_keeps between s z1 p1 Hreg) as Hkept.
  rewrite (zero_tensor_hit s z1 p2 Hkept).
  split; [done|]. split; [done|]. split; [done|].
  split; [by apply Hok|].
  split; [by apply run_heap, Hok|].
  split; simpl.
  - by apply bool_decide_eq_true.
  - intros s1 s2 Hne. by apply bool_decide_eq_false.
Qed.
End zero_props.

(** ** indexed.py *)

Section indexed_props.
Context {E : Type} `{UFLExpr E} `{Repr E} `{Repr MultiIndex}.

Lemma Indexed_init_unfold (e : E) (m : MultiIndex) :
  Indexed_init (Inst e) (Inst m) =
    if bool_decide (length (ufl_shape e) ≠ length (_indices m))
    then error (rank_mismatch_msg e m)
    else match check_fixed_indices (zip (ufl_shape e) (_indices m)) with
         | Ok _ => Ok (Indexed_node e m)
         | Raise ex => Raise ex
         end.
Proof.
  unfold Indexed_init. simpl. case_bool_decide; simpl; [done|].
  by destruct (check_fixed_indices _).
Qed.

Lemma check_fixed_indices_Ok pairs :
  Forall pair_below pairs → check_fixed_indices pairs = Ok tt.
Proof.
  induction 1 as [|[si di] pairs Hp _ IH]; simpl; [done|].
  destruct di as [c|v]; simpl; [done|].
  unfold pair_below in Hp. simpl in Hp.
  destruct (v >=? si) eqn:Hge; [lia|]. done.
Qed.

Lemma check_fixed_indices_Raise pairs :
  ¬ Forall pair_below pairs →
  check_fixed_indices pairs = error "Fixed index out of range!".
Proof.
  induction pairs as [|[si di] pairs IH]; intros Hn.
  - destruct Hn. constructor.
  - simpl. destruct di as [c|v]; simpl.
    + apply IH. intros Hf. apply Hn. by constructor.
    + destruct (v >=? si) eqn:Hge; [done|]. simpl.
      apply IH. intros Hf. apply Hn. constructor; [|done].
      unfold pair_below. simpl. lia.
Qed.

Lemma Forall_pair_below shape (m : MultiIndex) :
  Forall pair_below (zip shape (_indices m)) ↔ fixed_below shape m.
Proof.
  rewrite Forall_lookup. unfold fixed_below. split.
  - intros Hf i d v Hd Hv.
    apply (Hf i (d, FixedIndex v)).
    apply lookup_zip_with_Some. eauto.
  - intros Hb i [d di] Hz.
    apply lookup_zip_with_Some in Hz as (x & y & [= -> ->] & Hx & Hy).
    unfold pair_below. simpl. destruct y as [c|v]; [done|]. eauto.
Qed.

Lemma Indexed_init_Ok (e : E) (m : MultiIndex) :
  length (ufl_shape e) = length (_indices m) →
  fixed_below (ufl_shape e) m →
  Indexed_init (Inst e) (Inst m) = Ok (Indexed_node e m).
Proof.
  intros Hlen Hb. rewrite Indexed_init_unfold.
  rewrite bool_decide_eq_false_2 by (intros ?; done).
  rewrite check_fixed_indices_Ok; [done|]. by apply Forall_pair_below.
Qed.

Lemma Indexed_init_out_of_range (e : E) (m : MultiIndex) :
  length (ufl_shape e) = length (_indices m) →
  ¬ fixed_below (ufl_shape e) m →
  Indexed_init (Inst e) (Inst m) = error "Fixed index out of range!".
Proof.
  intros Hlen Hb. rewrite Indexed_init_unfold.
  rewrite bool_decide_eq_false_2 by (intros ?; done).
  rewrite check_fixed_indices_Raise; [done|]. by rewrite Forall_pair_below.
Qed.

Lemma fixed_below_dec shape (m : MultiIndex) :
  Decision (fixed_below shape m).
Proof.
  destruct (decide (Forall pair_below (zip shape (_indices m)))) as [Hf|Hf].
  - left. by apply Forall_pair_below.
  - right. by rewrite <- Forall_pair_below.
Defined.

(** C7.  Constructing [Indexed(e, m)] checks that [m] has as many entries
    as the shape of [e]; when it has not, the construction fails with the
    message that gives the number of indices supplied and the rank of
    the expression, and when it has, the construction succeeds or fails
    on a fixed index, never on the rank. *)
Theorem Indexed_rank_check (e : E) (m : MultiIndex) :
  (length (_indices m) ≠ length (ufl_shape e) →
     Indexed_init (Inst e) (Inst m) =
       Raise (UFLException
                ("Invalid number of indices (" +:+ pretty (length (_indices m))
                   +:+ ") for tensor expression of rank "
                   +:+ pretty (length (ufl_shape e))
                   +:+ ":" +:+ nl +:+ tab +:+ repr e +:+ nl)))
  ∧ (length (_indices m) = length (ufl_shape e) →
       Indexed_init (Inst e) (Inst m) = Ok (Indexed_node e m)
       ∨ Indexed_init (Inst e) (Inst m) =
           Raise (UFLException "Fixed index out of range!")).
Proof.
  split; intros Hlen.
  - rewrite Indexed_init_unfold.
    rewrite bool_decide_eq_true_2 by (intros ?; congruence). done.
  - destruct (fixed_below_dec (ufl_shape e) m) as [Hb|Hb].
    + left. by apply Indexed_init_Ok.
    + right. by apply Indexed_init_out_of_range.
Qed.

(** C4.  When the ranks match, constructing [Indexed(e, m)] tests every
    fixed entry [v] at a dimension [d] for [v < d] and for nothing else:
    it succeeds exactly when every fixed entry is below the dimension it
    indexes, and fails with the out-of-range error otherwise.  The lower
    bound [0 <= v] is not tested; when no fixed entry is negative, the
    test passes exactly when every fixed entry has [0 <= v < d]. *)
Theorem Indexed_fixed_index_upper_bound (e : E) (m : MultiIndex) :
  length (_indices m) = length (ufl_shape e) →
  (is_Ok (Indexed_init (Inst e) (Inst m)) ↔ fixed_below (ufl_shape e) m)
  ∧ (fixed_below (ufl_shape e) m →
       Indexed_init (Inst e) (Inst m) = Ok (Indexed_node e m))
  ∧ (¬ fixed_below (ufl_shape e) m →
       Indexed_init (Inst e) (Inst m) =
         Raise (UFLException "Fixed index out of range!"))
  ∧ (fixed_nonneg m →
       (is_Ok (Indexed_init (Inst e) (Inst m)) ↔ fixed_in_range (ufl_shape e) m)).
Proof.
  intros Hlen.
  assert (is_Ok (Indexed_init (Inst e) (Inst m)) ↔ fixed_below (ufl_shape e) m)
    as Hiff.
  { split.
    - intros [node Hnode].
      destruct (fixed_below_dec (ufl_shape e) m) as [Hb|Hb]; [done|].
      rewrite Indexed_init_out_of_range in Hnode; done.
    - intros Hb. eexists. by apply Indexed_init_Ok. }
  split; [exact Hiff|]. split; [|split].
  - intros Hb. by apply Indexed_init_Ok.
  - intros Hb. by apply Indexed_init_out_of_range.
  - intros Hnn. rewrite Hiff. split.
    + intros Hb i d v Hd Hv. split; [by apply (Hnn i)|by apply (Hb i d)].
    + intros Hr i d v Hd Hv. by apply (Hr i d v).
Qed.

Lemma occurrences_cons (x a : IndexBase) l :
  occurrences x (a :: l) =
    if decide (a = x) then S (occurrences x l) else occurrences x l.
Proof.
  unfold occurrences. rewrite filter_cons. by destruct (decide (a = x)).
Qed.

Lemma occurrences_elem_of (x : IndexBase) l :
  (0 < occurrences x l)%nat ↔ x ∈ l.
Proof.
  induction l as [|a l IH].
  - unfold occurrences. simpl. split; [lia|]. by intros ?%elem_of_nil.
  - rewrite occurrences_cons, elem_of_cons. destruct (decide (a = x)) as [->|Hne].
    + split; [by left | lia].
    + rewrite IH. split; [by right|]. intros [->|]; done.
Qed.

Lemma occurrences_filter (Q : IndexBase → Prop) `{!∀ i, Decision (Q i)} x l :
  occurrences x (filter Q l) = if decide (Q x) then occurrences x l else 0%nat.
Proof.
  induction l as [|a l IH].
  - unfold occurrences. simpl. by destruct (decide (Q x)).
  - rewrite filter_cons. destruct (decide (Q a)) as [Ha|Ha].
    + rewrite !occurrences_cons, IH.
      destruct (decide (a = x)) as [->|]; by destruct (decide (Q x)).
    + rewrite IH, occurrences_cons.
      destruct (decide (a = x)) as [->|]; by destruct (decide (Q x)).
Qed.

Lemma NoDup_occurrences (l : list IndexBase) :
  (∀ x, occurrences x l ≤ 1)%nat → NoDup l.
Proof.
  induction l as [|a l IH]; intros Hocc; constructor.
  - intros Hin%occurrences_elem_of.
    specialize (Hocc a). rewrite occurrences_cons in Hocc.
    destruct (decide (a = a)); [lia | done].
  - apply IH. intros x. specialize (Hocc x). rewrite occurrences_cons in Hocc.
    destruct (decide (a = x)); lia.
Qed.

Lemma unique_indices_NoDup indices : NoDup (unique_indices indices).
Proof.
  apply NoDup_occurrences. intros x. unfold unique_indices.
  rewrite occurrences_filter. destruct (decide _) as [[_ ->]|]; lia.
Qed.

Lemma elem_of_unique_indices i indices :
  i ∈ unique_indices indices ↔
    isinstance_Index i = true ∧ occurrences i indices = 1%nat.
Proof.
  unfold unique_indices. rewrite list_elem_of_filter. split.
  - by intros [? _].
  - intros [Hi Hocc]. split; [done|]. apply occurrences_elem_of. lia.
Qed.

(** C3.  When [Indexed(e, m)] is built, its free indices are those of
    [unique_indices] applied to the free indices of [e] followed by the
    entries of [m]: no index is listed twice, an entry is free exactly when
    it is a symbolic index that occurs once in that sequence, and an index
    that occurs twice (or more) in it is repeated and is not free. *)
Theorem Indexed_free_indices_unique (e : E) (m : MultiIndex) :
  length (_indices m) = length (ufl_shape e) →
  fixed_below (ufl_shape e) m →
  ∃ node : Indexed E,
    Indexed_init (Inst e) (Inst m) = Ok node
    ∧ Indexed_free_indices node = unique_indices (free_indices e ++ _indices m)
    ∧ NoDup (Indexed_free_indices node)
    ∧ (∀ i, i ∈ Indexed_free_indices node ↔
            isinstance_Index i = true
            ∧ occurrences i (free_indices e ++ _indices m) = 1%nat)
    ∧ (∀ i, (2 ≤ occurrences i (free_indices e ++ _indices m))%nat →
            i ∉ Indexed_free_indices node).
Proof.
  intros Hlen Hb. exists (Indexed_node e m).
  split; [by apply Indexed_init_Ok|].
  unfold Indexed_free_indices, Indexed_node. simpl.
  split; [done|]. split; [apply unique_indices_NoDup|].
  split; [intros i; apply elem_of_unique_indices|].
  intros i Hocc [_ Hone]%elem_of_unique_indices. lia.
Qed.

(** C9.  Indexing an [Indexed] node again always fails: for every node and
    every key, [__getitem__] raises the error saying that the object is
    already indexed, and never returns a value. *)
Theorem Indexed_getitem_fails {A K : Type} `{Repr K} (self : Indexed E) (key : K) :
  Indexed_getitem (A:=A) self key =
    Raise (UFLException ("Attempting to index with " +:+ repr key
                           +:+ ", but object is already indexed: "
                           +:+ Indexed_repr self))
  ∧ ¬ is_Ok (Indexed_getitem (A:=A) self key).
Proof.
  split; [done|]. intros [a Ha]. discriminate Ha.
Qed.
End indexed_props.

(** ** form.py: addition *)

Section form_add_props.
Context {E M FormData K : Type}.
Context `{ExprAdd E} `{Countable K} `{MeasureKey M K}.

Abbreviation Integral := (Integral E M).
Abbreviation Form := (Form E M FormData).

Lemma Form_init_Inst (itgs : list Integral) :
  Form_init (FormData:=FormData) (Inst <$> itgs) = Ok (new_Form itgs).
Proof.
  unfold Form_init.
  assert (forallb isinstance (Inst <$> itgs) = true) as ->.
  { induction itgs; simpl; auto. }
  assert (omap instance (Inst <$> itgs) = itgs) as ->; [|done].
  induction itgs as [|itg itgs IH]; simpl; [done|]. f_equal. exact IH.
Qed.

Lemma Form_init_isinstance (objs : list (dyn Integral)) :
  is_Ok (Form_init (FormData:=FormData) objs) ↔ Forall (λ o, isinstance o = true) objs.
Proof.
  assert (forallb isinstance objs = true ↔ Forall (λ o, isinstance o = true) objs)
    as <-.
  { induction objs as [|o objs IH]; simpl.
    - split; [constructor|done].
    - rewrite andb_true_iff, Forall_cons. by rewrite IH. }
  unfold Form_init.
  destruct (forallb isinstance objs) eqn:Hall; simpl.
  - split; [done|]. intros _. by eexists.
  - split; [|done]. intros [F HF]. discriminate HF.
Qed.

Lemma key_reconstruct (itg : Integral) (e : E) : key (reconstruct itg e) = key itg.
Proof. reflexivity. Qed.

Lemma keys_length (L : list Integral) : length (keys L) = length L.
Proof. apply length_fmap. Qed.

Lemma add_invariant_None (L : list Integral) (m : gmap K nat) k :
  add_invariant (L, m) → m !! k = None → k ∉ keys L.
Proof.
  intros [_ Hm] Hk [i Hi]%list_elem_of_lookup_1.
  apply Hm in Hi. simpl in Hi. congruence.
Qed.

Lemma add_invariant_Some (L : list Integral) (m : gmap K nat) k i :
  add_invariant (L, m) → m !! k = Some i →
  ∃ old, L !! i = Some old ∧ key old = k.
Proof.
  intros [_ Hm] Hk. apply Hm in Hk. simpl in Hk.
  apply list_lookup_fmap_Some in Hk as (old & Hold & ->). eauto.
Qed.

Lemma add_invariant_snoc (L : list Integral) (m : gmap K nat) itg :
  add_invariant (L, m) → key itg ∉ keys L →
  add_invariant (L ++ [itg], <[key itg := length L]> m).
Proof.
  intros [Hnd Hm] Hnew. split; simpl in *.
  - unfold keys. rewrite fmap_app. apply NoDup_app. split; [done|]. split.
    + intros x Hx ->%list_elem_of_singleton. done.
    + apply NoDup_singleton.
  - intros k i. unfold keys. rewrite fmap_app. simpl.
    destruct (decide (key itg = k)) as [<-|Hne].
    + rewrite lookup_insert_eq. split.
      * intros [= <-]. rewrite lookup_app_r by (rewrite length_fmap; lia).
        by rewrite length_fmap, Nat.sub_diag.
      * intros Hi. apply lookup_app_Some in Hi as [Hi|[Hge Hi]].
        -- destruct Hnew. by eapply list_elem_of_lookup_2.
        -- rewrite length_fmap in Hge, Hi.
           destruct (i - length L)%nat as [|n] eqn:Hd; [|done].
           f_equal. lia.
    + rewrite lookup_insert_ne by done. rewrite Hm. split.
      * apply lookup_app_l_Some.
      * intros Hi. apply lookup_app_Some in Hi as [Hi|[Hge Hi]]; [done|].
        rewrite length_fmap in Hi.
        destruct (i - length L)%nat; simpl in Hi; [congruence|done].
Qed.

Lemma keys_insert (L : list Integral) idx old new :
  L !! idx = Some old → key new = key old → keys (<[idx := new]> L) = keys L.
Proof.
  intros Hold Hkey. unfold keys. rewrite list_fmap_insert.
  apply list_insert_id. by rewrite list_lookup_fmap, Hold, Hkey.
Qed.

Lemma add_invariant_insert (L : list Integral) (m : gmap K nat) idx old new :
  add_invariant (L, m) → L !! idx = Some old → key new = key old →
  add_invariant (<[idx := new]> L, m).
Proof.
  intros [Hnd Hm] Hold Hkey. unfold add_invariant. simpl in *.
  by rewrite (keys_insert L idx old new).
Qed.

Lemma add_invariant_empty : add_invariant ([] : list Integral, ∅).
Proof.
  split; simpl; [constructor|]. intros k i. by rewrite lookup_empty.
Qed.

Lemma build_measure2idx_Ok (todo done : list Integral) (m : gmap K nat) :
  add_invariant (done, m) → NoDup (keys (done ++ todo)) →
  ∃ m', build_measure2idx (length done) todo m = Ok m'
        ∧ add_invariant (done ++ todo, m').
Proof.
  revert done m. induction todo as [|itg rest IH]; intros done m Hinv Hnd; simpl.
  - exists m. by rewrite app_nil_r.
  - assert (key itg ∉ keys done) as Hnew.
    { unfold keys in Hnd. rewrite fmap_app in Hnd.
      apply NoDup_app in Hnd as (_ & Hdisj & _).
      intros Hin. apply (Hdisj _ Hin). simpl. apply elem_of_cons. by left. }
    assert (m !! key itg = None) as Hnone.
    { destruct (m !! key itg) as [i|] eqn:Hi; [|done].
      destruct (add_invariant_Some _ _ _ _ Hinv Hi) as (old & Hold & Hk).
      destruct Hnew. rewrite <- Hk. apply list_elem_of_fmap_2.
      by eapply list_elem_of_lookup_2. }
    rewrite bool_decide_eq_true_2 by done. simpl.
    destruct (IH (done ++ [itg]) (<[key itg := length done]> m)) as (m' & Hm' & Hinv').
    + by apply add_invariant_snoc.
    + by rewrite <- app_assoc.
    + exists m'. rewrite length_app, Nat.add_1_r in Hm'.
      rewrite <- app_assoc in Hinv'. done.
Qed.

Lemma build_measure2idx_Raise (todo done : list Integral) (m : gmap K nat) :
  add_invariant (done, m) → ¬ NoDup (keys (done ++ todo)) →
  build_measure2idx (length done) todo m = error "Form invariant breached.".
Proof.
  revert done m. induction todo as [|itg rest IH]; intros done m Hinv Hnd; simpl.
  - destruct Hnd. rewrite app_nil_r. apply Hinv.
  - destruct (m !! key itg) as [i|] eqn:Hi.
    + rewrite bool_decide_eq_false_2 by done. done.
    + rewrite bool_decide_eq_true_2 by done. simpl.
      specialize (IH (done ++ [itg]) (<[key itg := length done]> m)).
      rewrite length_app, Nat.add_1_r, <- app_assoc in IH. apply IH; [|done].
      apply add_invariant_snoc; [done|]. by eapply add_invariant_None.
Qed.

Lemma add_integral_Ok (st : list Integral * gmap K nat) (itg : Integral) :
  add_invariant st → ∃ st', add_integral st itg = Ok st' ∧ add_invariant st'.
Proof.
  destruct st as [L m]. intros Hinv. unfold add_integral.
  destruct (m !! key itg) as [idx|] eqn:Hk.
  - destruct (add_invariant_Some _ _ _ _ Hinv Hk) as (old & Hold & Hkey).
    rewrite Hold. eexists. split; [done|].
    by apply (add_invariant_insert L m idx old).
  - eexists. split; [done|].
    apply add_invariant_snoc; [done|]. by eapply add_invariant_None.
Qed.

Lemma add_integrals_Ok (others : list Integral) (st : list Integral * gmap K nat) :
  add_invariant st → ∃ st', add_integrals st others = Ok st' ∧ add_invariant st'.
Proof.
  revert st. induction others as [|itg rest IH]; intros st Hinv; simpl.
  - by exists st.
  - destruct (add_integral_Ok st itg Hinv) as (st1 & -> & Hinv1). simpl.
    by apply IH.
Qed.

Lemma lookup_key_None k (L : list Integral) : k ∉ keys L → lookup_key k L = None.
Proof.
  induction L as [|itg L IH]; simpl; [done|].
  intros Hk. destruct (decide (key itg = k)) as [<-|Hne].
  - destruct Hk. apply elem_of_cons. by left.
  - apply IH. intros Hin. apply Hk. apply elem_of_cons. by right.
Qed.

Lemma lookup_key_Some k (L : list Integral) itg :
  lookup_key k L = Some itg → key itg = k ∧ itg ∈ L.
Proof.
  induction L as [|x L IH]; simpl; [done|].
  destruct (decide (key x = k)) as [Hx|Hne].
  - intros [= <-]. split; [done|]. apply elem_of_cons. by left.
  - intros [? ?]%IH. split; [done|]. apply elem_of_cons. by right.
Qed.

Lemma lookup_key_elem_of (L : list Integral) itg :
  NoDup (keys L) → itg ∈ L → lookup_key (key itg) L = Some itg.
Proof.
  induction L as [|x L IH]; intros Hnd Hin; [by apply elem_of_nil in Hin|].
  simpl in *. apply NoDup_cons in Hnd as [Hx Hnd].
  apply elem_of_cons in Hin as [->|Hin].
  - by rewrite decide_True.
  - rewrite decide_False; [by apply IH|].
    intros Heq. apply Hx. rewrite Heq. by apply list_elem_of_fmap_2.
Qed.

Lemma merge_integral_fresh (others : list Integral) x :
  key x ∉ keys others → merge_integral others x = x.
Proof. intros Hk. unfold merge_integral. by rewrite lookup_key_None. Qed.

Lemma merge_integral_cons_ne (itg : Integral) rest x :
  key x ≠ key itg → merge_integral (itg :: rest) x = merge_integral rest x.
Proof.
  intros Hne. unfold merge_integral. simpl. by rewrite decide_False.
Qed.

Lemma key_merge_integral (others : list Integral) x :
  key (merge_integral others x) = key x.
Proof.
  unfold merge_integral. destruct (lookup_key (key x) others) as [itg|] eqn:Hl; [|done].
  rewrite key_reconstruct. by apply lookup_key_Some in Hl as [? _].
Qed.

Lemma filter_ext_elem_of {A : Type} (P Q : A → Prop)
    `{!∀ x, Decision (P x), !∀ x, Decision (Q x)} (l : list A) :
  (∀ x, x ∈ l → P x ↔ Q x) → filter P l = filter Q l.
Proof.
  induction l as [|a l IH]; intros Hext; [done|].
  assert (P a ↔ Q a) as Ha by (apply Hext, elem_of_cons; by left).
  assert (filter P l = filter Q l) as Hl.
  { apply IH. intros x Hx. apply Hext, elem_of_cons. by right. }
  destruct (decide (P a)).
  - rewrite !filter_cons_True by tauto. by rewrite Hl.
  - rewrite !filter_cons_False by tauto. done.
Qed.

Lemma merged_integrals_new (L : list Integral) itg rest :
  key itg ∉ keys L → NoDup (keys (itg :: rest)) →
  merged_integrals (L ++ [itg]) rest = merged_integrals L (itg :: rest).
Proof.
  intros Hnew Hnd. simpl in Hnd. apply NoDup_cons in Hnd as [Hrest Hnd].
  unfold merged_integrals. rewrite fmap_app. simpl.
  rewrite (merge_integral_fresh rest itg) by done.
  rewrite filter_cons_True by done. rewrite <- app_assoc. simpl. f_equal.
  - apply list_fmap_ext. intros i x Hx. symmetry. apply merge_integral_cons_ne.
    intros Heq. apply Hnew. rewrite <- Heq. apply list_elem_of_fmap_2.
    by eapply list_elem_of_lookup_2.
  - f_equal. apply filter_ext_elem_of. intros x Hx.
    unfold keys. rewrite fmap_app, elem_of_app. simpl.
    rewrite list_elem_of_singleton. split; [tauto|].
    intros Hx' [?|Heq]; [done|]. apply Hrest. rewrite <- Heq.
    by apply list_elem_of_fmap_2.
Qed.

Lemma merged_integrals_same (L : list Integral) idx old itg rest :
  NoDup (keys L) → L !! idx = Some old → key old = key itg →
  NoDup (keys (itg :: rest)) →
  merged_integrals
    (<[idx := reconstruct itg (expr_add (integrand old) (integrand itg))]> L) rest
  = merged_integrals L (itg :: rest).
Proof.
  intros HndL Hold Hkey Hnd. simpl in Hnd. apply NoDup_cons in Hnd as [Hrest Hnd].
  unfold merged_integrals.
  rewrite (keys_insert L idx old) by done.
  rewrite (filter_cons_False _ itg).
  2:{ intros Hn. apply Hn. rewrite <- Hkey. apply list_elem_of_fmap_2.
      by eapply list_elem_of_lookup_2. }
  f_equal. rewrite list_fmap_insert.
  rewrite merge_integral_fresh by done.
  apply list_eq. intros j. destruct (decide (idx = j)) as [<-|Hne].
  - rewrite list_lookup_insert_eq.
    2:{ rewrite length_fmap. by eapply lookup_lt_Some. }
    rewrite list_lookup_fmap, Hold. simpl. f_equal.
    unfold merge_integral. simpl. by rewrite decide_True.
  - rewrite list_lookup_insert_ne by done. rewrite !list_lookup_fmap.
    destruct (L !! j) as [x|] eqn:Hx; simpl; [|done]. f_equal.
    symmetry. apply merge_integral_cons_ne. intros Heq. apply Hne.
    apply (NoDup_lookup (keys L) idx j (key itg)); [done| |].
    + unfold keys. by rewrite list_lookup_fmap, Hold, <- Hkey.
    + unfold keys. by rewrite list_lookup_fmap, Hx, <- Heq.
Qed.

Lemma add_integrals_merged (others L : list Integral) (m : gmap K nat) :
  add_invariant (L, m) → NoDup (keys others) →
  ∃ m', add_integrals (L, m) others = Ok (merged_integrals L others, m')
        ∧ add_invariant (merged_integrals L others, m').
Proof.
  revert L m. induction others as [|itg rest IH]; intros L m Hinv Hnd.
  - exists m. unfold merged_integrals. simpl. rewrite filter_nil, app_nil_r.
    rewrite list_fmap_ext with (g := id); [by rewrite list_fmap_id|done].
  - assert (NoDup (keys rest)) as Hnd' by (simpl in Hnd; by apply NoDup_cons in Hnd as [_ ?]).
    simpl. destruct (m !! key itg) as [idx|] eqn:Hk.
    + destruct (add_invariant_Some _ _ _ _ Hinv Hk) as (old & Hold & Hkey).
      rewrite Hold. simpl.
      destruct (IH (<[idx := reconstruct itg (expr_add (integrand old) (integrand itg))]> L) m)
        as (m' & Hrun & Hinv'); [by apply (add_invariant_insert L m idx old)|done|].
      pose proof (merged_integrals_same L idx old itg rest (proj1 Hinv) Hold Hkey Hnd)
        as Heq.
      rewrite Heq in Hrun, Hinv'. eauto.
    + simpl. pose proof (add_invariant_None _ _ _ Hinv Hk) as Hnew.
      destruct (IH (L ++ [itg]) (<[key itg := length L]> m))
        as (m' & Hrun & Hinv'); [by apply add_invariant_snoc|done|].
      rewrite merged_integrals_new in Hrun, Hinv' by done. eauto.
Qed.

Lemma keys_merged_integrals (L others : list Integral) k :
  k ∈ keys (merged_integrals L others) ↔ k ∈ keys L ∨ k ∈ keys others.
Proof.
  unfold merged_integrals, keys. rewrite fmap_app, elem_of_app.
  rewrite <- list_fmap_compose.
  rewrite (list_fmap_ext (key ∘ merge_integral others) key L)
    by (intros; apply key_merge_integral).
  split.
  - intros [?|Hin]; [by left|]. right.
    apply list_elem_of_fmap in Hin as (x & -> & [_ Hx]%list_elem_of_filter).
    by apply list_elem_of_fmap_2.
  - intros [?|Hin]; [by left|].
    destruct (decide (k ∈ key <$> L)); [by left|]. right.
    apply list_elem_of_fmap in Hin as (x & -> & Hx).
    apply list_elem_of_fmap_2, list_elem_of_filter. done.
Qed.

(** The two loops of [Form.__add__] compute [merged_integrals]: a key of
    both operands has exactly one integral in the result, the one that
    [reconstruct] builds on the integral of [other] over the sum of the
    left and the right integrand; when the two measures are equal this is
    also the integral rebuilt from the left operand's.  An integral whose
    key occurs in one operand only is carried across unchanged. *)
Lemma Form_add_merges (F1 F2 : Form) :
  NoDup (keys (integrals F1)) →
  NoDup (keys (integrals F2)) →
  ∃ F : Form,
    Form_add F1 F2 = Ok F
    ∧ integrals F = merged_integrals (integrals F1) (integrals F2)
    ∧ NoDup (keys (integrals F))
    ∧ (∀ i1 i2, i1 ∈ integrals F1 → i2 ∈ integrals F2 → key i1 = key i2 →
         reconstruct i2 (expr_add (integrand i1) (integrand i2)) ∈ integrals F
         ∧ measure (reconstruct i2 (expr_add (integrand i1) (integrand i2)))
             = measure i2
         ∧ (measure i1 = measure i2 →
              reconstruct i2 (expr_add (integrand i1) (integrand i2))
                = reconstruct i1 (expr_add (integrand i1) (integrand i2))))
    ∧ (∀ i1, i1 ∈ integrals F1 → key i1 ∉ keys (integrals F2) → i1 ∈ integrals F)
    ∧ (∀ i2, i2 ∈ integrals F2 → key i2 ∉ keys (integrals F1) → i2 ∈ integrals F)
    ∧ (∀ k, k ∈ keys (integrals F) ↔
            k ∈ keys (integrals F1) ∨ k ∈ keys (integrals F2)).
Proof.
  intros Hnd1 Hnd2. unfold integrals in *.
  destruct (build_measure2idx_Ok (_integrals F1) [] ∅) as (m & Hm & Hinv);
    [apply add_invariant_empty|done|]. simpl in Hm, Hinv.
  destruct (add_integrals_merged (_integrals F2) (_integrals F1) m Hinv Hnd2)
    as (m' & Hrun & Hinv').
  exists (new_Form (merged_integrals (_integrals F1) (_integrals F2))).
  split.
  { unfold Form_add. rewrite Hm. simpl. rewrite Hrun. simpl. apply Form_init_Inst. }
  simpl. split; [done|]. split; [apply Hinv'|].
  split; [|split; [|split]].
  - intros i1 i2 Hi1 Hi2 Hkey. split; [|split; [done|]].
    2:{ intros Hm12. unfold reconstruct. f_equal. symmetry. exact Hm12. }
    unfold merged_integrals. apply elem_of_app. left.
    apply list_elem_of_fmap. exists i1. split; [|done].
    unfold merge_integral. rewrite Hkey. by rewrite lookup_key_elem_of.
  - intros i1 Hi1 Hk. unfold merged_integrals. apply elem_of_app. left.
    apply list_elem_of_fmap. exists i1. split; [|done].
    by rewrite merge_integral_fresh.
  - intros i2 Hi2 Hk. unfold merged_integrals. apply elem_of_app. right.
    by apply list_elem_of_filter.
  - apply keys_merged_integrals.
Qed.

Lemma keys_measures (itgs : list Integral) :
  keys itgs = measure_key <$> (measure <$> itgs).
Proof. unfold keys, key. by rewrite <- list_fmap_compose. Qed.

Lemma NoDup_fmap_elem_inj {A B : Type} (f : A → B) (l : list A) x y :
  NoDup (f <$> l) → x ∈ l → y ∈ l → f x = f y → x = y.
Proof.
  induction l as [|a l IH]; intros Hnd Hx Hy Hf; [by apply elem_of_nil in Hx|].
  rewrite fmap_cons in Hnd. apply NoDup_cons in Hnd as [Ha Hnd].
  apply elem_of_cons in Hx as [->|Hx]; apply elem_of_cons in Hy as [->|Hy].
  - done.
  - destruct Ha. rewrite Hf. apply list_elem_of_fmap. eauto.
  - destruct Ha. rewrite <- Hf. apply list_elem_of_fmap. eauto.
  - by apply IH.
Qed.


(** C2.  The constructor of [Form] asserts only that every
    element it is given is an [Integral]: on integrals it always succeeds,
    whether or not two of them share a measure.  The assertion that no
    measure occurs twice is made by [Form.__add__] on the integrals of its
    left operand: the addition fails with "Form invariant breached."
    when a measure occurs twice there, and succeeds otherwise. *)
Theorem Form_duplicate_measure_check :
  (∀ itgs : list Integral,
     Form_init (FormData:=FormData) (Inst <$> itgs) = Ok (new_Form itgs))
  ∧ (∀ objs : list (dyn Integral),
       is_Ok (Form_init (FormData:=FormData) objs)
       ↔ Forall (λ o, isinstance o = true) objs)
  ∧ (∀ F1 F2 : Form,
       ¬ NoDup (keys (integrals F1)) →
       Form_add F1 F2 = Raise (UFLException "Form invariant breached."))
  ∧ (∀ F1 F2 : Form,
       NoDup (keys (integrals F1)) → is_Ok (Form_add F1 F2)).
Proof.
  split; [apply Form_init_Inst|]. split; [apply Form_init_isinstance|].
  split; intros F1 F2 Hnd; unfold integrals in Hnd.
  - unfold Form_add.
    rewrite (build_measure2idx_Raise (_integrals F1) [] ∅);
      [done|apply add_invariant_empty|done].
  - destruct (build_measure2idx_Ok (_integrals F1) [] ∅) as (m & Hm & Hinv);
      [apply add_invariant_empty|done|]. simpl in Hm, Hinv.
    destruct (add_integrals_Ok (_integrals F2) (_integrals F1, m) Hinv)
      as ([L m'] & Hrun & _).
    unfold Form_add. rewrite Hm. simpl. rewrite Hrun. simpl.
    rewrite Form_init_Inst. by eexists.
Qed.
End form_add_props.

(** ** form.py: form data *)

Section form_data_props.
Context {E M FormData Kwargs World : Type}.
Variable preprocess : Form E M FormData → Kwargs → World → FormData * World.

(** C8.  [compute_form_data] is idempotent.  Whatever the form, a call
    returns metadata and leaves it stored on the form, and any later call,
    with any arguments, returns that same metadata and changes neither the
    form nor the outside world, so [preprocess] is not run again.  On a
    form that has no metadata yet the call runs [preprocess] once and
    returns and stores its result; on a form that has metadata already,
    [preprocess] is not run at all. *)
Theorem compute_form_data_idempotent
    (self : Form E M FormData) (kwargs : Kwargs) (w : World) :
  let '(fd1, self1, w1) := compute_form_data preprocess self kwargs w in
  (∀ kwargs' : Kwargs,
     compute_form_data preprocess self1 kwargs' w1 = (fd1, self1, w1))
  ∧ is_Some fd1
  ∧ form_data self1 = fd1
  ∧ _integrals self1 = _integrals self
  ∧ (_form_data self = None →
       fd1 = Some (preprocess self kwargs w).1
       ∧ w1 = (preprocess self kwargs w).2)
  ∧ (∀ fd, _form_data self = Some fd → fd1 = Some fd ∧ self1 = self ∧ w1 = w).
Proof.
  unfold compute_form_data, form_data.
  destruct (_form_data self) as [fd|] eqn:Hfd; simpl.
  - rewrite Hfd. simpl. split; [intros _; by rewrite Hfd|]. split; [by eexists|].
    split; [done|]. split; [done|]. split; [done|].
    by intros fd' [= <-].
  - destruct (preprocess self kwargs w) as [fd w'] eqn:Hp. simpl.
    split; [done|]. split; [by eexists|].
    split; [done|]. split; [done|]. split; [done|]. done.
Qed.
End form_data_props.

(** ** Examples *)

(** Two [Sum] nodes built separately from equal operands are equal and
    have the same hash. *)
Lemma Expr_eq_hash_witness :
  let is_ : Expr Z → Expr Z → bool := λ _ _, false in
  let hash : PyType * list (PyType * list PyType) → Z :=
    λ t, Z.of_nat (length t.2) in
  let a := Operator "Sum" [FloatValue 1; ZeroType [3]] in
  let b := Operator "Sum" [FloatValue 1; ZeroType [3]] in
  py_eq is_ a (ObjExpr b) = true ∧ Expr_hash hash a = Expr_hash hash b.
Proof.
  intros is_ hash a b. split; [reflexivity|].
  assert (∀ x y, is_ x y = true → x = y) as Hsound by (intros x y; discriminate).
  exact (proj1 (Expr_eq_hash is_ Hsound hash (λ _, 0) a b eq_refl)).
Defined.

(** Indexing a vector of dimension 3 with the fixed index 2 succeeds, and
    with the fixed index 3 it fails. *)
Lemma Indexed_fixed_index_upper_bound_witness :
  let m2 := {| _indices := [FixedIndex 2] |} in
  let m3 := {| _indices := [FixedIndex 3] |} in
  (length (_indices m2) = length (ufl_shape vec3)
   ∧ Indexed_init (Inst vec3) (Inst m2) = Ok (Indexed_node vec3 m2))
  ∧ (length (_indices m3) = length (ufl_shape vec3)
     ∧ Indexed_init (Inst vec3) (Inst m3)
       = Raise (UFLException "Fixed index out of range!")).
Proof.
  intros m2 m3.
  assert (length (_indices m2) = length (ufl_shape vec3)) as Hl2 by reflexivity.
  assert (length (_indices m3) = length (ufl_shape vec3)) as Hl3 by reflexivity.
  split; (split; [reflexivity|]).
  - apply (proj1 (proj2 (Indexed_fixed_index_upper_bound vec3 m2 Hl2))).
    intros [|i] d v Hd Hv; simpl in Hd, Hv; [|done].
    injection Hd as <-. injection Hv as <-. lia.
  - apply (proj1 (proj2 (proj2 (Indexed_fixed_index_upper_bound vec3 m3 Hl3)))).
    intros Hb. specialize (Hb 0%nat 3 3 eq_refl eq_refl). lia.
Defined.

(** Indexing a vector of dimension 3 with the fixed index -1 succeeds,
    although -1 does not lie in [0, 3). *)
Lemma Indexed_fixed_index_negative_counterexample :
  ¬ constructor_validates_range vec3 {| _indices := [FixedIndex (-1)] |}.
Proof.
  intros Hval. specialize (Hval eq_refl) as [Hrange _].
  assert (is_Ok (Indexed_init (Inst vec3) (Inst {| _indices := [FixedIndex (-1)] |})))
    as Hok.
  { eexists. apply Indexed_init_Ok; [reflexivity|].
    intros [|i] d v Hd Hv; simpl in Hd, Hv; [|done].
    injection Hd as <-. injection Hv as <-. lia. }
  specialize (Hrange Hok 0%nat 3 (-1) eq_refl eq_refl). lia.
Qed.

(** Indexing [vec3] with one symbolic index leaves exactly that index
    free; indexing [vec3_i], in which [Index 0] is already free, with
    [Index 0] makes the index repeated, and no index is free. *)
Lemma Indexed_free_indices_unique_witness :
  let m := {| _indices := [Index 0] |} in
  (length (_indices m) = length (ufl_shape vec3) ∧ fixed_below (ufl_shape vec3) m
   ∧ ∃ node, Indexed_init (Inst vec3) (Inst m) = Ok node
             ∧ Indexed_free_indices node = [Index 0])
  ∧ (length (_indices m) = length (ufl_shape vec3_i)
     ∧ fixed_below (ufl_shape vec3_i) m
     ∧ ∃ node, Indexed_init (Inst vec3_i) (Inst m) = Ok node
               ∧ Indexed_free_indices node = []).
Proof.
  intros m.
  assert (∀ shape, fixed_below shape m) as Hb.
  { intros shape [|i] d v _ Hv; simpl in Hv; done. }
  assert (length (_indices m) = length (ufl_shape vec3)) as Hl by reflexivity.
  assert (length (_indices m) = length (ufl_shape vec3_i)) as Hl' by reflexivity.
  split; (split; [reflexivity|]); (split; [apply Hb|]).
  - destruct (Indexed_free_indices_unique vec3 m Hl (Hb _))
      as (node & Hnode & Hfree & _).
    exists node. split; [exact Hnode|]. rewrite Hfree. reflexivity.
  - destruct (Indexed_free_indices_unique vec3_i m Hl' (Hb _))
      as (node & Hnode & Hfree & _).
    exists node. split; [exact Hnode|]. rewrite Hfree. reflexivity.
Defined.

Lemma NoDup_keys_singleton (itg : Integral (Expr Z) Measure) : NoDup (keys [itg]).
Proof. apply NoDup_singleton. Qed.

(** The key of a [Measure] determines the measure. *)
Lemma Measure_key_inj : Inj (=) (=) Measure_key.
Proof.
  intros [t1 d1 md1] [t2 d2 md2] Hk. unfold Measure_key in Hk. simpl in Hk.
  by injection Hk as -> -> ->.
Qed.

Lemma NoDup_measures_singleton (itg : Integral (Expr Z) Measure) :
  NoDup (measures (FormData:=unit) (new_Form [itg])).
Proof. apply NoDup_singleton. Qed.


(** The constructor accepts two integrals over the same measure. *)
Lemma Form_init_duplicates_counterexample :
  ¬ constructor_rejects_duplicates (FormData:=unit)
      [ {| _integrand := coefficient "f"; _measure := dx0 |};
        {| _integrand := coefficient "g"; _measure := dx0 |} ].
Proof.
  intros Hrej. apply Hrej.
  - intros Hnd. simpl in Hnd. apply NoDup_cons in Hnd as [Hnotin _].
    apply Hnotin. apply list_elem_of_singleton. reflexivity.
  - eexists. reflexivity.
Qed.

(** * Further properties *)

(** ** base.py: equality is structural *)

Section expr_eq_props.
Context {F : Type} `{PyFloat F}.
Variable is_ : Expr F → Expr F → bool.

(** Induction on expression trees, with the operands of an operator
    covered by the induction hypothesis. *)
Lemma Expr_tree_ind (P : Expr F → Prop) :
  (∀ s, P (ZeroType s)) →
  (∀ v, P (FloatValue v)) →
  (∀ cls r, P (Terminal cls r)) →
  (∀ cls ops, Forall P ops → P (Operator cls ops)) →
  ∀ e, P e.
Proof.
  intros Hz Hf Ht Ho.
  refine (fix IH (e : Expr F) : P e :=
            match e with
            | ZeroType s => Hz s
            | FloatValue v => Hf v
            | Terminal cls r => Ht cls r
            | Operator cls ops =>
                Ho cls ops
                   ((fix go (l : list (Expr F)) : Forall P l :=
                       match l with
                       | [] => Forall_nil_2 P
                       | x :: l' => Forall_cons_2 P x l' (IH x) (go l')
                       end) ops)
            end).
Qed.

Lemma tuple_eq_structural xs :
  (∀ x y, is_ x y = true → x = y) →
  Forall (λ x, ∀ y, Expr_eq is_ x y = true ↔ x = y) xs →
  ∀ ys, tuple_eq is_ xs ys = true ↔ xs = ys.
Proof.
  intros Hid Hxs. induction Hxs as [|x xs Hx _ IH]; intros [|y ys]; simpl;
    try (split; congruence).
  rewrite andb_true_iff, orb_true_iff, IH, Hx. split.
  - intros [[Hi| ->] ->]; [by rewrite (Hid _ _ Hi)|done].
  - intros [= -> ->]. split; [by right|done].
Qed.

(** X1.  When float comparison is exact, [a == b] on expression nodes is
    equality of the trees: same classes, same values in the leaves, and
    the same operands in the same order. *)
Theorem Expr_eq_structural :
  (∀ v w : F, float_eqb v w = true ↔ v = w) →
  (∀ x y, is_ x y = true → x = y) →
  ∀ a b : Expr F, py_eq is_ a (ObjExpr b) = true ↔ a = b.
Proof.
  intros Hfloat Hid a. simpl.
  induction a as [s|v|cls r|cls ops IH] using Expr_tree_ind; intros b.
  - destruct b; simpl; try (split; congruence).
    rewrite bool_decide_eq_true. split; congruence.
  - destruct b; simpl; try (split; congruence).
    rewrite Hfloat. split; congruence.
  - destruct b as [| |cls' r'|]; simpl; try (split; congruence).
    case_bool_decide as Hc; simpl.
    + rewrite bool_decide_eq_true. split; congruence.
    + split; [done|]. intros [= -> ->]. done.
  - rewrite Expr_eq_Operator. destruct b as [| | |cls' ops']; simpl;
      try (split; congruence).
    case_bool_decide as Hc; simpl.
    + rewrite (tuple_eq_structural ops Hid IH). split; congruence.
    + split; [done|]. intros [= -> ->]. done.
Qed.

Lemma tuple_eq_sym xs :
  (∀ x y, is_ x y = is_ y x) →
  Forall (λ x, ∀ y, Expr_eq is_ x y = Expr_eq is_ y x) xs →
  ∀ ys, tuple_eq is_ xs ys = tuple_eq is_ ys xs.
Proof.
  intros Hid Hxs. induction Hxs as [|x xs Hx _ IH]; intros [|y ys]; simpl; try done.
  by rewrite IH, Hx, (Hid x y).
Qed.

(** X2.  [a == b] and [b == a] agree on expression nodes, whatever the float
    comparison does on special values, as long as it is symmetric. *)
Theorem Expr_eq_sym :
  (∀ v w : F, float_eqb v w = float_eqb w v) →
  (∀ x y, is_ x y = is_ y x) →
  ∀ a b : Expr F, py_eq is_ a (ObjExpr b) = py_eq is_ b (ObjExpr a).
Proof.
  intros Hfloat Hid a. simpl.
  induction a as [s|v|cls r|cls ops IH] using Expr_tree_ind; intros b.
  - destruct b as [s'| | |cls' ops']; simpl; try done.
    apply bool_decide_ext. split; congruence.
  - destruct b as [|v'| |cls' ops']; simpl; try done.
  - destruct b as [| |cls' r'|cls' ops']; simpl; try done.
    rewrite (bool_decide_ext (TyTerminal cls = TyTerminal cls')
                             (TyTerminal cls' = TyTerminal cls))
      by (split; congruence).
    rewrite (bool_decide_ext (r = r') (r' = r)) by (split; congruence). done.
  - rewrite Expr_eq_Operator. destruct b as [| | |cls' ops']; simpl; try done.
    change (Expr_eq is_ (Operator cls ops) (Operator cls' ops')
            = Expr_eq is_ (Operator cls' ops') (Operator cls ops)).
    rewrite !Expr_eq_Operator. simpl.
    rewrite (bool_decide_ext (TyOperator cls = TyOperator cls')
                             (TyOperator cls' = TyOperator cls))
      by (split; congruence).
    by rewrite (tuple_eq_sym ops Hid IH).
Qed.

(** X3.  [is_zero] holds for the zero tensors and for the float constants that
    compare equal to 0, and for no other node: an operator is never zero,
    whatever its operands. *)
Theorem is_zero_iff (e : Expr F) :
  is_zero is_ e = true ↔
    (∃ s, e = ZeroType s) ∨ (∃ v, e = FloatValue v ∧ float_eq_int v 0 = true).
Proof.
  unfold is_zero. destruct e as [s|v|cls r|cls ops]; simpl.
  - split; [intros _; left; by eexists|done].
  - split.
    + intros Hv. right. by exists v.
    + intros [[s Hs]|[v' [[= <-] Hv]]]; [done|exact Hv].
  - split; [done|]. intros [[s Hs]|[v [Hv _]]]; done.
  - split; [done|]. intros [[s Hs]|[v [Hv _]]]; done.
Qed.
End expr_eq_props.

(** ** base.py: constants and the zero cache *)

Section float_value_props.
Context {F : Type} `{PyFloat F} `{FloatType F}.
Variable is_ : Expr F → Expr F → bool.

Lemma new_FloatValue_perform (v : PyScalar F) (p : @Process F) :
  (new_FloatValue v p).2 = perform p (Allocate (FloatValue (float_type v))).
Proof. reflexivity. Qed.

Lemma float_value_perform (v : PyScalar F) (p : @Process F) :
  ∃ a : @action F, (float_value v p).2 = perform p a.
Proof.
  unfold float_value. destruct (scalar_eq_0 v).
  - by exists (CallZeroTensor []).
  - eexists. apply new_FloatValue_perform.
Qed.

Lemma perform_step_perform (p : @Process F) (s : step) :
  ∃ a : @action F, perform_step p s = perform p a.
Proof. destruct s as [a|v]; simpl; [by exists a|apply float_value_perform]. Qed.

Lemma run_steps_cache_ok steps (p : @Process F) :
  cache_ok p → cache_ok (run_steps steps p).
Proof.
  revert p. induction steps as [|s steps IH]; intros p Hok; simpl; [done|].
  apply IH. destruct (perform_step_perform p s) as [a ->].
  by apply perform_cache_ok.
Qed.

Lemma run_steps_keeps steps s z (p : @Process F) :
  _zero_cache p !! s = Some z → _zero_cache (run_steps steps p) !! s = Some z.
Proof.
  revert p. induction steps as [|st steps IH]; intros p Hc; simpl; [done|].
  apply IH. destruct (perform_step_perform p st) as [a ->].
  by apply perform_keeps.
Qed.

Lemma run_steps_heap steps z e (p : @Process F) :
  heap p !! z = Some e → heap (run_steps steps p) !! z = Some e.
Proof.
  revert p. induction steps as [|st steps IH]; intros p Hc; simpl; [done|].
  apply IH. destruct (perform_step_perform p st) as [a ->].
  by apply perform_heap.
Qed.

(** X4.  The object that [float_value(v)] returns is zero (in the sense of
    [is_zero]) exactly when [v == 0]: a zero value gives the cached
    [ZeroType(())] object, and any other value a newly allocated
    [FloatValue] that leaves the cache as it was.  The conversion
    [float_type] is assumed to keep the comparison with 0. *)
Theorem float_value_is_zero (objs : list (Expr F)) (steps : list step)
    (v : PyScalar F) :
  (∀ w : PyScalar F, float_eq_int (float_type w) 0 = scalar_eq_0 w) →
  let p := run_steps steps (start objs) in
  let '(a, p') := float_value v p in
  ∃ e : Expr F,
    heap p' !! a = Some e
    ∧ is_zero is_ e = scalar_eq_0 v
    ∧ (scalar_eq_0 v = true → e = ZeroType [] ∧ _zero_cache p' !! [] = Some a)
    ∧ (scalar_eq_0 v = false →
         e = FloatValue (float_type v)
         ∧ a = length (heap p)
         ∧ _zero_cache p' = _zero_cache p).
Proof.
  intros Hconv p.
  assert (cache_ok p) as Hok by apply run_steps_cache_ok, start_cache_ok.
  unfold float_value. destruct (scalar_eq_0 v) eqn:Hv.
  - unfold zero.
    pose proof (zero_tensor_registers [] p) as Hreg.
    pose proof (zero_tensor_cache_ok [] p Hok) as Hok'.
    destruct (zero_tensor [] p) as [a p'] eqn:Hz. simpl in Hreg.
    exists (ZeroType []). split; [by apply Hok'|]. split; [done|].
    split; [done|]. done.
  - simpl. exists (FloatValue (float_type v)).
    split; [by rewrite lookup_app_r, Nat.sub_diag|].
    split; [|split; [done|by intros _]].
    unfold is_zero. simpl. by rewrite Hconv.
Qed.

(** X5.  Every zero value is mapped by [float_value] to one and the same
    object, the one [zero()] returns, whatever is built between the calls;
    [as_ufl] of a zero scalar returns it too, without changing the state. *)
Theorem float_value_zero_canonical (objs : list (Expr F))
    (before between : list step) (v1 v2 : PyScalar F) :
  scalar_eq_0 v1 = true →
  scalar_eq_0 v2 = true →
  let p0 := run_steps before (start objs) in
  let '(z1, p1) := float_value v1 p0 in
  let p2 := run_steps between p1 in
  z1 = (zero p0).1
  ∧ float_value v2 p2 = (z1, p2)
  ∧ zero p2 = (z1, p2)
  ∧ as_ufl (ValScalar v2) p2 = Ok (z1, p2)
  ∧ heap p2 !! z1 = Some (ZeroType []).
Proof.
  intros Hv1 Hv2 p0. unfold float_value, as_ufl, float_value. rewrite Hv1, Hv2.
  unfold zero.
  assert (cache_ok p0) as Hok by apply run_steps_cache_ok, start_cache_ok.
  pose proof (zero_tensor_registers [] p0) as Hreg.
  pose proof (zero_tensor_cache_ok [] p0 Hok) as Hok'.
  destruct (zero_tensor [] p0) as [z1 p1] eqn:Hz. simpl in Hreg.
  cbv beta iota zeta. set (p2 := run_steps between p1).
  pose proof (run_steps_keeps between [] z1 p1 Hreg) as Hkept. fold p2 in Hkept.
  rewrite (zero_tensor_hit [] z1 p2 Hkept).
  split; [done|]. split; [done|]. split; [done|]. split; [done|].
  apply run_steps_heap. by apply Hok'.
Qed.

(** X6.  Zero tensors of different shapes are different objects, and an
    object, once allocated, is never replaced: both zero tensors are still
    in place after the second request. *)
Theorem zero_tensor_distinct (objs : list (Expr F))
    (before between : list step) (s1 s2 : list Z) :
  s1 ≠ s2 →
  let p0 := run_steps before (start objs) in
  let '(z1, p1) := zero_tensor s1 p0 in
  let '(z2, p2) := zero_tensor s2 (run_steps between p1) in
  z1 ≠ z2
  ∧ heap p2 !! z1 = Some (ZeroType s1)
  ∧ heap p2 !! z2 = Some (ZeroType s2)
  ∧ (∀ a e, heap p0 !! a = Some e → heap p2 !! a = Some e).
Proof.
  intros Hne p0.
  assert (cache_ok p0) as Hok by apply run_steps_cache_ok, start_cache_ok.
  pose proof (zero_tensor_registers s1 p0) as Hreg1.
  pose proof (zero_tensor_cache_ok s1 p0 Hok) as Hok1.
  pose proof (λ a e, zero_tensor_heap s1 a e p0) as Hheap1.
  destruct (zero_tensor s1 p0) as [z1 p1] eqn:Hz1. simpl in Hreg1, Hok1, Hheap1.
  pose proof (run_steps_cache_ok between p1 Hok1) as Hokb.
  pose proof (zero_tensor_registers s2 (run_steps between p1)) as Hreg2.
  pose proof (zero_tensor_cache_ok s2 _ Hokb) as Hok2.
  pose proof (λ a e, zero_tensor_heap s2 a e (run_steps between p1)) as Hheap2.
  destruct (zero_tensor s2 (run_steps between p1)) as [z2 p2] eqn:Hz2.
  simpl in Hreg2, Hok2, Hheap2.
  assert (heap p2 !! z1 = Some (ZeroType s1)) as H1.
  { apply Hheap2, run_steps_heap. by apply Hok1. }
  assert (heap p2 !! z2 = Some (ZeroType s2)) as H2 by (by apply Hok2).
  split; [|split; [done|split; [done|]]].
  - intros ->. rewrite H1 in H2. congruence.
  - intros a e Ha. by apply Hheap2, run_steps_heap, Hheap1.
Qed.
End float_value_props.

(** ** indexed.py: index dimensions and nesting *)

Section index_dimensions_props.
Context {E : Type} `{UFLExpr E} `{Repr E} `{Repr MultiIndex}.

Lemma dict_of_pairs_snoc (l : list (IndexBase * Z)) p :
  dict_of_pairs (l ++ [p]) = <[p.1 := p.2]> (dict_of_pairs l).
Proof. unfold dict_of_pairs. by rewrite foldl_app. Qed.

Lemma dict_of_pairs_lookup_Some (l : list (IndexBase * Z)) k v :
  dict_of_pairs l !! k = Some v → (k, v) ∈ l.
Proof.
  induction l as [|[k' v'] l IH] using rev_ind.
  - unfold dict_of_pairs. simpl. by rewrite lookup_empty.
  - rewrite dict_of_pairs_snoc, elem_of_app, list_elem_of_singleton. simpl.
    destruct (decide (k' = k)) as [->|Hne].
    + rewrite lookup_insert_eq. intros [= ->]. by right.
    + rewrite lookup_insert_ne by done. intros Hl. left. by apply IH.
Qed.

Lemma dict_of_pairs_lookup_is_Some (l : list (IndexBase * Z)) k v :
  (k, v) ∈ l → is_Some (dict_of_pairs l !! k).
Proof.
  induction l as [|[k' v'] l IH] using rev_ind.
  - by intros ?%elem_of_nil.
  - rewrite dict_of_pairs_snoc, elem_of_app, list_elem_of_singleton. simpl.
    destruct (decide (k' = k)) as [->|Hne].
    + rewrite lookup_insert_eq. by eexists.
    + rewrite lookup_insert_ne by done. intros [Hin|[= ? ?]]; [by apply IH|done].
Qed.

Lemma elem_of_symbolic_pairs (indices : list IndexBase) (shape : list Z) i s :
  (i, s) ∈ filter (λ p : IndexBase * Z, isinstance_Index p.1 = true)
                  (zip indices shape)
  ↔ isinstance_Index i = true
    ∧ ∃ p, indices !! p = Some i ∧ shape !! p = Some s.
Proof.
  rewrite list_elem_of_filter, list_elem_of_lookup. simpl.
  split; intros [Hi [p Hp]]; (split; [done|]); exists p.
  - apply lookup_zip_with_Some in Hp as (x & y & [= -> ->] & Hx & Hy). done.
  - apply lookup_zip_with_Some. exists i, s. by destruct Hp.
Qed.

(** X7.  The index dimensions of [Indexed(e, m)]: an index that [e] already
    gives a dimension keeps that dimension; any other key is a symbolic
    entry of [m], mapped to the dimension at one of its positions; every
    symbolic entry of [m] is a key, and one that stands at a single
    position is mapped to the dimension at that position; a fixed index is
    a key only if it is one for [e]. *)
Theorem Indexed_index_dimensions_lookup (e : E) (m : MultiIndex) :
  length (_indices m) = length (ufl_shape e) →
  fixed_below (ufl_shape e) m →
  ∃ node : Indexed E,
    Indexed_init (Inst e) (Inst m) = Ok node
    ∧ (∀ i d, index_dimensions e !! i = Some d →
              Indexed_index_dimensions node !! i = Some d)
    ∧ (∀ i s, index_dimensions e !! i = None →
              Indexed_index_dimensions node !! i = Some s →
              isinstance_Index i = true
              ∧ ∃ p, _indices m !! p = Some i ∧ ufl_shape e !! p = Some s)
    ∧ (∀ p c, _indices m !! p = Some (Index c) →
              is_Some (Indexed_index_dimensions node !! Index c))
    ∧ (∀ p c s, _indices m !! p = Some (Index c) →
                ufl_shape e !! p = Some s →
                index_dimensions e !! Index c = None →
                (∀ q, _indices m !! q = Some (Index c) → q = p) →
                Indexed_index_dimensions node !! Index c = Some s)
    ∧ (∀ v, index_dimensions e !! FixedIndex v = None →
            Indexed_index_dimensions node !! FixedIndex v = None).
Proof.
  intros Hlen Hb. exists (Indexed_node e m).
  split; [by apply Indexed_init_Ok|].
  unfold Indexed_index_dimensions, Indexed_node. simpl.
  set (pairs := filter (λ p : IndexBase * Z, isinstance_Index p.1 = true)
                       (zip (_indices m) (ufl_shape e))).
  assert (∀ i s, index_dimensions e !! i = None →
                 (index_dimensions e ∪ dict_of_pairs pairs) !! i = Some s →
                 isinstance_Index i = true
                 ∧ ∃ p, _indices m !! p = Some i ∧ ufl_shape e !! p = Some s) as H2.
  { intros i s Hnone Hl. apply lookup_union_Some_raw in Hl as [Hl|[_ Hl]]; [congruence|].
    apply dict_of_pairs_lookup_Some in Hl. by apply elem_of_symbolic_pairs in Hl. }
  assert (∀ p c, _indices m !! p = Some (Index c) →
                 is_Some ((index_dimensions e ∪ dict_of_pairs pairs) !! Index c)) as H3.
  { intros p c Hp.
    destruct (lookup_lt_is_Some_2 (ufl_shape e) p) as [s Hs].
    { rewrite <- Hlen. by eapply lookup_lt_Some. }
    destruct (index_dimensions e !! Index c) as [d|] eqn:Hd.
    - exists d. by apply lookup_union_Some_l.
    - destruct (dict_of_pairs_lookup_is_Some pairs (Index c) s) as [s' Hs'].
      { apply elem_of_symbolic_pairs. split; [done|]. by exists p. }
      exists s'. apply lookup_union_Some_raw. by right. }
  split; [|split; [done|split; [done|split]]].
  - intros i d Hd. by apply lookup_union_Some_l.
  - intros p c s Hp Hs Hnone Honly.
    destruct (H3 p c Hp) as [s' Hs'].
    destruct (H2 _ _ Hnone Hs') as (_ & q & Hq & Hqs).
    rewrite (Honly q Hq) in Hqs. congruence.
  - intros v Hnone.
    destruct ((index_dimensions e ∪ dict_of_pairs pairs) !! FixedIndex v)
      as [s|] eqn:Hl; [|done].
    by destruct (H2 _ _ Hnone Hl) as [? _].
Qed.

(** X8.  [free_index_dimensions] maps exactly the free indices, and each of
    them to the default dimension. *)
Theorem free_index_dimensions_lookup (e : E) (default_dim : Z) i d :
  free_index_dimensions e default_dim !! i = Some d
  ↔ i ∈ free_indices e ∧ d = default_dim.
Proof.
  unfold free_index_dimensions. split.
  - intros Hl%dict_of_pairs_lookup_Some.
    apply list_elem_of_fmap in Hl as (j & [= -> ->] & Hj). done.
  - intros [Hi ->].
    destruct (dict_of_pairs_lookup_is_Some
                ((λ j, (j, default_dim)) <$> free_indices e) i default_dim)
      as [d Hd].
    { apply list_elem_of_fmap. by exists i. }
    rewrite Hd. f_equal.
    apply dict_of_pairs_lookup_Some, list_elem_of_fmap in Hd as (j & [= _ ->] & _).
    done.
Qed.

(** X9.  An [Indexed] node has shape [()]: wrapping it in [Indexed] again
    succeeds with the empty multi-index only, and fails on the rank with
    any other. *)
Theorem Indexed_of_Indexed (node : Indexed E) (m : MultiIndex) :
  (_indices m = [] →
     Indexed_init (Inst node) (Inst m) = Ok (Indexed_node node m))
  ∧ (_indices m ≠ [] →
       Indexed_init (Inst node) (Inst m) =
         Raise (UFLException
                  ("Invalid number of indices (" +:+ pretty (length (_indices m))
                     +:+ ") for tensor expression of rank 0:"
                     +:+ nl +:+ tab +:+ Indexed_repr node +:+ nl))).
Proof.
  rewrite Indexed_init_unfold. simpl. split; intros Hm.
  - rewrite Hm. reflexivity.
  - rewrite bool_decide_eq_true_2; [reflexivity|].
    destruct (_indices m); [done|]. simpl. lia.
Qed.
End index_dimensions_props.

(** ** form.py: cell, domains and groups *)

Section form_cell_props.
Context {E M FormData Cell : Type} `{ExprCell E Cell} `{CellUndefined Cell}.

Lemma cells_of_cons (itg : Integral E M) rest :
  cells_of (itg :: rest) =
    match expr_cell (integrand itg) with
    | Some d => d :: cells_of rest
    | None => cells_of rest
    end.
Proof. reflexivity. Qed.

Lemma cell_loop_spec (itgs : list (Integral E M)) (c : option Cell) :
  cell_loop c itgs =
    match head (filter (λ d, is_undefined d = false) (cells_of itgs)) with
    | Some d => Some d
    | None => match last (cells_of itgs) with
              | Some d => Some d
              | None => c
              end
    end.
Proof.
  revert c. induction itgs as [|itg rest IH]; intros c; [done|].
  rewrite cells_of_cons. simpl.
  destruct (expr_cell (integrand itg)) as [d|]; [|apply IH].
  destruct (is_undefined d) eqn:Hd; simpl.
  - rewrite IH. rewrite filter_cons_False by congruence. rewrite last_cons.
    destruct (head _); [done|]. by destruct (last _).
  - by rewrite filter_cons_True.
Qed.

(** X10.  [Form.cell] returns the cell of the first integrand whose cell is
    fully defined; when no integrand has a defined cell it returns the
    last undefined cell it met, and [None] only when no integrand has a
    cell at all.  So a defined cell is never hidden by an undefined one. *)
Theorem Form_cell_spec (self : Form E M FormData) :
  Form_cell self =
    match head (filter (λ d, is_undefined d = false) (integrand_cells self)) with
    | Some d => Some d
    | None => last (integrand_cells self)
    end
  ∧ (Form_cell self = None ↔ integrand_cells self = [])
  ∧ (∀ d, d ∈ integrand_cells self → is_undefined d = false →
          ∃ d', Form_cell self = Some d' ∧ is_undefined d' = false).
Proof.
  assert (Form_cell self =
    match head (filter (λ d, is_undefined d = false) (integrand_cells self)) with
    | Some d => Some d
    | None => last (integrand_cells self)
    end) as Hspec.
  { unfold Form_cell. rewrite cell_loop_spec. fold (integrand_cells self).
    destruct (head _); [done|]. by destruct (last _). }
  split; [exact Hspec|]. rewrite Hspec. split.
  - split.
    + destruct (head _) eqn:Hh; [done|]. apply last_None.
    + intros ->. done.
  - intros d Hin Hd.
    destruct (filter (λ d, is_undefined d = false) (integrand_cells self))
      as [|d' l] eqn:Hf.
    + assert (d ∈ filter (λ d, is_undefined d = false) (integrand_cells self)) as Hd'
        by (by apply list_elem_of_filter).
      rewrite Hf in Hd'. by apply elem_of_nil in Hd'.
    + simpl. exists d'. split; [done|].
      assert (d' ∈ filter (λ d, is_undefined d = false) (integrand_cells self)) as Hd'
        by (rewrite Hf; apply elem_of_cons; by left).
      by apply list_elem_of_filter in Hd' as [? _].
Qed.
End form_cell_props.

Section form_domains_props.
Context {E FormData : Type}.

Lemma filter_fmap_comm {A B : Type} (f : A → B) (P : B → Prop)
    `{!∀ y, Decision (P y)} (l : list A) :
  filter P (f <$> l) = f <$> filter (λ x, P (f x)) l.
Proof.
  induction l as [|x l IH]; [done|]. rewrite fmap_cons, !filter_cons.
  destruct (decide (P (f x))); rewrite ?fmap_cons, IH; done.
Qed.

(** X11.  The accessors of a form agree with each other: the domains of one
    domain type are the domains of the form filtered by that type, they
    all have that type, there is one measure and one domain for every
    integral selected, and an integral is selected exactly when it
    belongs to the form and has that domain type. *)
Theorem Form_domains_filter (self : Form E Measure FormData) (dt : string) :
  Form_domains self (Some dt)
    = filter (λ p, p.1 = dt) (Form_domains self None)
  ∧ Forall (λ p, p.1 = dt) (Form_domains self (Some dt))
  ∧ length (Form_domains self (Some dt)) = length (Form_integrals self (Some dt))
  ∧ length (Form_measures self (Some dt)) = length (Form_integrals self (Some dt))
  ∧ (∀ itg, itg ∈ Form_integrals self (Some dt)
            ↔ itg ∈ Form_integrals self None ∧ domain_type (measure itg) = dt)
  ∧ Form_domains self None = domain_of <$> _integrals self.
Proof.
  unfold Form_domains, Form_measures, Form_integrals.
  rewrite <- !list_fmap_compose.
  split; [|split; [|split; [|split; [|split]]]].
  - by rewrite filter_fmap_comm.
  - apply Forall_fmap, Forall_forall. intros itg Hin.
    by apply list_elem_of_filter in Hin as [? _].
  - by rewrite length_fmap.
  - by rewrite length_fmap.
  - intros itg. rewrite list_elem_of_filter. tauto.
  - done.
Qed.

Lemma group_integral_lookup
    (d : gmap (string * Z) (list (Integral E Measure))) itg k :
  group_integral d itg !! k =
    if decide (domain_of itg = k)
    then Some (match d !! k with
               | Some (x :: l') => x :: l'
               | _ => []
               end ++ [itg])
    else d !! k.
Proof.
  unfold group_integral. destruct (decide (domain_of itg = k)) as [<-|Hne].
  - by rewrite lookup_insert_eq.
  - by rewrite lookup_insert_ne.
Qed.

Lemma foldl_group_integral_lookup (itgs : list (Integral E Measure)) k :
  foldl group_integral ∅ itgs !! k =
    match filter (λ itg, domain_of itg = k) itgs with
    | [] => None
    | x :: l => Some (x :: l)
    end.
Proof.
  induction itgs as [|itg itgs IH] using rev_ind; [done|].
  rewrite foldl_app. simpl. rewrite group_integral_lookup, filter_app, IH.
  destruct (decide (domain_of itg = k)) as [Hk|Hk].
  - rewrite (filter_cons_True _ itg) by done. rewrite filter_nil.
    by destruct (filter _ itgs).
  - rewrite (filter_cons_False _ itg) by done. rewrite filter_nil, app_nil_r. done.
Qed.

(** X12.  [integral_groups] maps each domain that occurs in the form to the
    integrals over that domain, in the order of the form, and has no
    other key: no group is empty, every integral is in the group of its
    own domain and in no other. *)
Theorem integral_groups_lookup (self : Form E Measure FormData) :
  (∀ k l, integral_groups self !! k = Some l
          ↔ l ≠ [] ∧ l = filter (λ itg, domain_of itg = k) (_integrals self))
  ∧ (∀ itg, itg ∈ _integrals self →
            ∃ l, integral_groups self !! domain_of itg = Some l ∧ itg ∈ l)
  ∧ (∀ k l itg, integral_groups self !! k = Some l → itg ∈ l →
                domain_of itg = k ∧ itg ∈ _integrals self).
Proof.
  assert (∀ k l, integral_groups self !! k = Some l
            ↔ l ≠ [] ∧ l = filter (λ itg, domain_of itg = k) (_integrals self)) as Hl.
  { intros k l. unfold integral_groups, Form_integrals.
    rewrite foldl_group_integral_lookup.
    destruct (filter _ (_integrals self)) as [|x r]; split.
    - done.
    - intros [Hne ->]. done.
    - intros [= <-]. done.
    - intros [_ ->]. done. }
  split; [exact Hl|]. split.
  - intros itg Hin. exists (filter (λ i, domain_of i = domain_of itg) (_integrals self)).
    assert (itg ∈ filter (λ i, domain_of i = domain_of itg) (_integrals self)) as Hf
      by (by apply list_elem_of_filter).
    split; [|done]. apply Hl. split; [|done].
    intros Hnil. rewrite Hnil in Hf. by apply elem_of_nil in Hf.
  - intros k l itg Hk Hin. apply Hl in Hk as [_ ->].
    by apply list_elem_of_filter in Hin.
Qed.
End form_domains_props.

(** ** form.py: chaining sums, the empty form, subtraction *)

Section form_algebra_props.
Context {E M FormData K : Type}.
Context `{ExprAdd E} `{ExprNeg E} `{Countable K} `{MeasureKey M K}.

Abbreviation Integral := (Integral E M).
Abbreviation Form := (Form E M FormData).

Lemma add_integral_keys (st st' : list Integral * gmap K nat) (itg : Integral) :
  add_invariant st → add_integral st itg = Ok st' →
  ∀ k, k ∈ keys st'.1 ↔ k ∈ keys st.1 ∨ k = key itg.
Proof.
  destruct st as [L m]. intros Hinv. unfold add_integral.
  destruct (m !! key itg) as [idx|] eqn:Hk.
  - destruct (add_invariant_Some _ _ _ _ Hinv Hk) as (old & Hold & Hkey).
    rewrite Hold. intros [= <-] k. simpl.
    rewrite (keys_insert L idx old) by done. split; [by left|].
    intros [?| ->]; [done|]. rewrite <- Hkey. apply list_elem_of_fmap_2.
    by eapply list_elem_of_lookup_2.
  - intros [= <-] k. simpl. unfold keys. rewrite fmap_app, elem_of_app. simpl.
    by rewrite list_elem_of_singleton.
Qed.

Lemma add_integrals_keys (others : list Integral)
    (st st' : list Integral * gmap K nat) :
  add_invariant st → add_integrals st others = Ok st' →
  ∀ k, k ∈ keys st'.1 ↔ k ∈ keys st.1 ∨ k ∈ keys others.
Proof.
  revert st. induction others as [|itg rest IH]; intros st Hinv; simpl.
  - intros [= <-] k. rewrite elem_of_nil. tauto.
  - destruct (add_integral_Ok st itg Hinv) as (st1 & Hst1 & Hinv1).
    rewrite Hst1. simpl. intros Hrun k.
    rewrite (IH st1 Hinv1 Hrun k), (add_integral_keys st st1 itg Hinv Hst1 k).
    rewrite elem_of_cons. tauto.
Qed.

(** X13.  A sum that succeeds satisfies the invariant that addition asserts:
    no measure occurs twice in it (nor in the left operand), whatever the
    right operand looks like; its measures are those of the two operands;
    and it is a new form without cached data.  So a sum can always be the
    left operand of a further sum. *)
Theorem Form_add_closed (F1 F2 F : Form) :
  Form_add F1 F2 = Ok F →
  NoDup (keys (integrals F1))
  ∧ NoDup (keys (integrals F))
  ∧ (∀ k, k ∈ keys (integrals F)
          ↔ k ∈ keys (integrals F1) ∨ k ∈ keys (integrals F2))
  ∧ (∀ F3 : Form, is_Ok (Form_add F F3))
  ∧ _form_data F = None ∧ _repr F = None.
Proof.
  unfold integrals. intros Hadd.
  assert (NoDup (keys (_integrals F1))) as Hnd1.
  { destruct (decide (NoDup (keys (_integrals F1)))) as [?|Hdup]; [done|].
    unfold Form_add in Hadd.
    rewrite (build_measure2idx_Raise (_integrals F1) [] ∅) in Hadd;
      [done|apply add_invariant_empty|done]. }
  destruct (build_measure2idx_Ok (_integrals F1) [] ∅) as (m & Hm & Hinv);
    [apply add_invariant_empty|done|]. simpl in Hm, Hinv.
  destruct (add_integrals_Ok (_integrals F2) (_integrals F1, m) Hinv)
    as ([L m'] & Hrun & Hinv').
  pose proof (add_integrals_keys _ _ _ Hinv Hrun) as Hkeys.
  unfold Form_add in Hadd. rewrite Hm in Hadd. simpl in Hadd.
  rewrite Hrun in Hadd. simpl in Hadd. rewrite Form_init_Inst in Hadd.
  injection Hadd as <-. simpl in *.
  split; [done|]. split; [apply Hinv'|]. split; [exact Hkeys|].
  split; [|done].
  intros F3.
  destruct (build_measure2idx_Ok L [] ∅) as (m3 & Hm3 & Hinv3);
    [apply add_invariant_empty|apply Hinv'|]. simpl in Hm3, Hinv3.
  destruct (add_integrals_Ok (_integrals F3) (L, m3) Hinv3) as ([L3 m3'] & Hrun3 & _).
  unfold Form_add. simpl. rewrite Hm3. simpl. rewrite Hrun3. simpl.
  rewrite Form_init_Inst. by eexists.
Qed.

Lemma Form_add_Ok_merged (F1 F2 : Form) :
  NoDup (keys (_integrals F1)) → NoDup (keys (_integrals F2)) →
  Form_add F1 F2 = Ok (new_Form (merged_integrals (_integrals F1) (_integrals F2))).
Proof.
  intros Hnd1 Hnd2.
  destruct (build_measure2idx_Ok (_integrals F1) [] ∅) as (m & Hm & Hinv);
    [apply add_invariant_empty|done|]. simpl in Hm, Hinv.
  destruct (add_integrals_merged (_integrals F2) (_integrals F1) m Hinv Hnd2)
    as (m' & Hrun & _).
  unfold Form_add. rewrite Hm. simpl. rewrite Hrun. simpl. apply Form_init_Inst.
Qed.

Lemma merged_integrals_nil_r (L : list Integral) : merged_integrals L [] = L.
Proof.
  unfold merged_integrals. rewrite filter_nil, app_nil_r.
  rewrite list_fmap_ext with (g := id); [by rewrite list_fmap_id|done].
Qed.

Lemma merged_integrals_nil_l (L : list Integral) : merged_integrals [] L = L.
Proof.
  unfold merged_integrals. simpl.
  induction L as [|itg L IH]; [done|].
  rewrite filter_cons_True by apply not_elem_of_nil. by rewrite IH.
Qed.

(** X14.  The empty form is neutral for addition on either side, up to the
    caches: adding it to a form without repeated measures gives a new
    form with the same integrals in the same order, whose memo fields
    and form data are unset. *)
Theorem Form_add_empty (F : Form) :
  NoDup (keys (integrals F)) →
  Form_add F (new_Form []) = Ok (new_Form (integrals F))
  ∧ Form_add (new_Form []) F = Ok (new_Form (integrals F))
  ∧ _form_data (new_Form (FormData:=FormData) (integrals F)) = None.
Proof.
  unfold integrals. intros Hnd. split; [|split; [|done]].
  - rewrite Form_add_Ok_merged; [|done|constructor]. simpl.
    by rewrite merged_integrals_nil_r.
  - rewrite Form_add_Ok_merged; [|constructor|done]. simpl.
    by rewrite merged_integrals_nil_l.
Qed.

Lemma keys_Integral_neg (L : list Integral) : keys (Integral_neg <$> L) = keys L.
Proof. unfold keys. rewrite <- list_fmap_compose. by apply list_fmap_ext. Qed.

(** X15.  Negation always succeeds and keeps the integrals' measures, number
    and order.  [F1 - F2] is [F1 + (-F2)]: for forms without repeated
    measures, a measure of both operands gets the integrand
    [a + (-b)], an integral of [F2] alone appears negated and an integral
    of [F1] alone unchanged. *)
Theorem Form_sub_merges (F1 F2 : Form) :
  NoDup (keys (integrals F1)) →
  NoDup (keys (integrals F2)) →
  Form_neg F2 = Ok (new_Form (Integral_neg <$> integrals F2))
  ∧ keys (Integral_neg <$> integrals F2) = keys (integrals F2)
  ∧ ∃ F : Form,
      Form_sub F1 F2 = Ok F
      ∧ integrals F = merged_integrals (integrals F1) (Integral_neg <$> integrals F2)
      ∧ (∀ i1 i2, i1 ∈ integrals F1 → i2 ∈ integrals F2 → key i1 = key i2 →
           reconstruct i2 (expr_add (integrand i1) (expr_neg (integrand i2)))
             ∈ integrals F)
      ∧ (∀ i1, i1 ∈ integrals F1 → key i1 ∉ keys (integrals F2) → i1 ∈ integrals F)
      ∧ (∀ i2, i2 ∈ integrals F2 → key i2 ∉ keys (integrals F1) →
               Integral_neg i2 ∈ integrals F).
Proof.
  unfold integrals. intros Hnd1 Hnd2.
  assert (Form_neg F2 = Ok (new_Form (Integral_neg <$> _integrals F2))) as Hneg
    by apply Form_init_Inst.
  split; [exact Hneg|]. split; [apply keys_Integral_neg|].
  exists (new_Form (merged_integrals (_integrals F1) (Integral_neg <$> _integrals F2))).
  split.
  { unfold Form_sub. rewrite Hneg. simpl.
    apply Form_add_Ok_merged; [done|]. simpl. by rewrite keys_Integral_neg. }
  simpl. split; [done|]. unfold merged_integrals.
  split; [|split].
  - intros i1 i2 Hi1 Hi2 Hkey. apply elem_of_app. left.
    apply list_elem_of_fmap. exists i1. split; [|done].
    unfold merge_integral.
    rewrite (Hkey : key i1 = key (Integral_neg i2)).
    rewrite lookup_key_elem_of; [done| |].
    + by rewrite keys_Integral_neg.
    + by apply list_elem_of_fmap_2.
  - intros i1 Hi1 Hk. apply elem_of_app. left.
    apply list_elem_of_fmap. exists i1. split; [|done].
    rewrite merge_integral_fresh; [done|]. by rewrite keys_Integral_neg.
  - intros i2 Hi2 Hk. apply elem_of_app. right.
    apply list_elem_of_filter. split; [done|]. by apply list_elem_of_fmap_2.
Qed.
End form_algebra_props.

(** ** form.py: signature and equality *)

Section form_eq_props.
Context {E M FormData : Type} `{Repr (Integral E M)}.

Lemma Form_repr_unfold (self : Form E M FormData) :
  repr_memo_ok self →
  (Form_repr self).1 = repr_of_integrals (_integrals self)
  ∧ _repr (Form_repr self).2 = Some (repr_of_integrals (_integrals self))
  ∧ _integrals (Form_repr self).2 = _integrals self
  ∧ _form_data (Form_repr self).2 = _form_data self.
Proof.
  intros Hok. unfold Form_repr.
  destruct (_repr self) as [r|] eqn:Hr; simpl.
  - destruct Hok as [Hnone|Hsome]; [congruence|].
    rewrite Hr in Hsome. injection Hsome as ->. by rewrite Hr.
  - done.
Qed.

(** X16.  The signature of a form is computed from its integrals once and then
    read from the memo field: for a form whose memo is unset or correct
    (as it is for every form the constructor builds), [repr] returns the
    string of the integrals, stores it, keeps integrals and form data,
    and a second call returns the same string without changing the
    form. *)
Theorem Form_repr_memo (self : Form E M FormData) :
  repr_memo_ok self →
  let '(r, self') := Form_repr self in
  r = repr_of_integrals (_integrals self)
  ∧ repr_memo_ok self'
  ∧ _integrals self' = _integrals self
  ∧ _form_data self' = _form_data self
  ∧ Form_repr self' = (r, self')
  ∧ signature self' = (r, self').
Proof.
  intros Hok. destruct (Form_repr_unfold self Hok) as (Hr & Hmemo & Hint & Hfd).
  destruct (Form_repr self) as [r self'] eqn:Hrepr. simpl in *. subst r.
  split; [done|]. split; [right; by rewrite Hmemo, Hint|].
  split; [done|]. split; [done|].
  assert (Form_repr self' = (repr_of_integrals (_integrals self), self')) as H2
    by (unfold Form_repr; by rewrite Hmemo).
  by split.
Qed.

(** X17.  Two forms are equal exactly when the strings of their integrals are
    equal; in particular forms with the same integrals are equal whatever
    their caches and form data hold, the comparison is symmetric, and a
    form is never equal to an object that is not a form. *)
Theorem Form_eq_spec (a b : Form E M FormData) :
  repr_memo_ok a → repr_memo_ok b →
  (Form_eq a (Inst b)).1.1
    = bool_decide (repr_of_integrals (_integrals a)
                   = repr_of_integrals (_integrals b))
  ∧ (_integrals a = _integrals b → (Form_eq a (Inst b)).1.1 = true)
  ∧ (Form_eq a (Inst b)).1.1 = (Form_eq b (Inst a)).1.1
  ∧ (∀ r, (Form_eq a (NotInst r)).1.1 = false).
Proof.
  intros Ha Hb.
  destruct (Form_repr_unfold a Ha) as (Hra & _).
  destruct (Form_repr_unfold b Hb) as (Hrb & _).
  assert (∀ x y : Form E M FormData,
            (Form_eq x (Inst y)).1.1 = bool_decide ((Form_repr x).1 = (Form_repr y).1))
    as Heq.
  { intros x y. unfold Form_eq.
    destruct (Form_repr x) as [rx x'], (Form_repr y) as [ry y']. done. }
  rewrite !Heq, Hra, Hrb.
  split; [done|]. split; [|split; [|done]].
  - intros ->. by apply bool_decide_eq_true.
  - apply bool_decide_ext. split; congruence.
Qed.
End form_eq_props.

(** ** Further examples *)

(** Two separately built sums of the same operands are equal; exchanging
    the operands breaks the equality. *)
Lemma Expr_eq_structural_witness :
  let is_ : Expr Z → Expr Z → bool := λ _ _, false in
  let a := Operator "Sum" [coefficient "f"; FloatValue 2] in
  ((∀ v w : Z, float_eqb v w = true ↔ v = w)
   ∧ (∀ x y, is_ x y = true → x = y))
  ∧ (py_eq is_ a (ObjExpr a) = true ↔ a = a).
Proof.
  intros is_ a.
  assert (∀ v w : Z, float_eqb v w = true ↔ v = w) as Hf by apply Z.eqb_eq.
  assert (∀ x y, is_ x y = true → x = y) as Hi by (intros x y; discriminate).
  split; [by split|]. exact (Expr_eq_structural is_ Hf Hi a a).
Defined.

Lemma Expr_eq_sym_witness :
  let is_ : Expr Z → Expr Z → bool := λ _ _, false in
  let a := Operator "Sum" [coefficient "f"; FloatValue 2] in
  let b := Operator "Sum" [FloatValue 2; coefficient "f"] in
  ((∀ v w : Z, float_eqb v w = float_eqb w v)
   ∧ (∀ x y, is_ x y = is_ y x))
  ∧ py_eq is_ a (ObjExpr b) = py_eq is_ b (ObjExpr a).
Proof.
  intros is_ a b.
  assert (∀ v w : Z, float_eqb v w = float_eqb w v) as Hf by apply Z.eqb_sym.
  assert (∀ x y, is_ x y = is_ y x) as Hi by reflexivity.
  split; [by split|]. exact (Expr_eq_sym is_ Hf Hi a b).
Defined.

Lemma Z_float_type_keeps_zero (w : PyScalar Z) :
  float_eq_int (float_type w) 0 = scalar_eq_0 w.
Proof. by destruct w. Qed.

(** [float_value(0)] in a new process gives the zero scalar. *)
Lemma float_value_is_zero_witness :
  let is_ : Expr Z → Expr Z → bool := λ _ _, false in
  (∀ w : PyScalar Z, float_eq_int (float_type w) 0 = scalar_eq_0 w)
  ∧ ∃ e : Expr Z,
      heap (float_value (ScalarInt 0) (start [])).2
        !! (float_value (ScalarInt 0) (start [])).1 = Some e
      ∧ is_zero is_ e = true.
Proof.
  intros is_. split; [exact Z_float_type_keeps_zero|].
  destruct (float_value_is_zero is_ [] [] (ScalarInt 0) Z_float_type_keeps_zero)
    as (e & He & Hz & _).
  exists e. split; [exact He|exact Hz].
Defined.

(** [float_value(0)] and, after a non-zero constant has been built,
    [float_value(0.0)] return the same object. *)
Lemma float_value_zero_canonical_witness :
  let v1 : PyScalar Z := ScalarInt 0 in
  let v2 : PyScalar Z := ScalarFloat 0 in
  let between := [StepFloatValue (ScalarInt 5)] in
  (scalar_eq_0 v1 = true ∧ scalar_eq_0 v2 = true)
  ∧ float_value v2 (run_steps between (float_value v1 (start [])).2)
    = ((float_value v1 (start [])).1,
       run_steps between (float_value v1 (start [])).2).
Proof.
  intros v1 v2 between. split; [by split|].
  exact (proj1 (proj2 (float_value_zero_canonical [] [] between v1 v2
                         eq_refl eq_refl))).
Defined.

(** The zero scalar and the zero vector of dimension 3 are different
    objects. *)
Lemma zero_tensor_distinct_witness :
  ([] : list Z) ≠ [3]
  ∧ (zero_tensor [] (start ([] : list (Expr Z)))).1
    ≠ (zero_tensor [3] (zero_tensor [] (start ([] : list (Expr Z)))).2).1.
Proof.
  assert (([] : list Z) ≠ [3]) as Hne by discriminate.
  split; [exact Hne|].
  exact (proj1 (zero_tensor_distinct (F:=Z) [] [] [] [] [3] Hne)).
Defined.

(** Indexing [vec3] with [Index 0] gives that index the dimension 3. *)
Lemma Indexed_index_dimensions_lookup_witness :
  let m := {| _indices := [Index 0] |} in
  (length (_indices m) = length (ufl_shape vec3) ∧ fixed_below (ufl_shape vec3) m)
  ∧ ∃ node, Indexed_init (Inst vec3) (Inst m) = Ok node
            ∧ Indexed_index_dimensions node !! Index 0 = Some 3.
Proof.
  intros m.
  assert (length (_indices m) = length (ufl_shape vec3)) as Hl by reflexivity.
  assert (fixed_below (ufl_shape vec3) m) as Hb.
  { intros [|i] d v _ Hv; simpl in Hv; done. }
  split; [by split|].
  destruct (Indexed_index_dimensions_lookup vec3 m Hl Hb)
    as (node & Hnode & _ & _ & _ & Hone & _).
  exists node. split; [exact Hnode|].
  apply (Hone 0%nat 0%nat 3); [reflexivity..|].
  intros [|q] Hq; [reflexivity|]. simpl in Hq. discriminate Hq.
Defined.

(** The sum of two forms over the cell domain 0 can be added to again. *)
Lemma Form_add_closed_witness :
  let F := new_Form (FormData:=unit)
             [ {| _integrand := Operator "Sum" [coefficient "f"; coefficient "g"];
                  _measure := dx0 |} ] in
  Form_add form_f_dx form_g_dx = Ok F
  ∧ NoDup (keys (integrals F))
  ∧ is_Ok (Form_add F form_h_ds).
Proof.
  intros F.
  assert (Form_add form_f_dx form_g_dx = Ok F) as Hadd by (vm_compute; reflexivity).
  split; [exact Hadd|].
  destruct (Form_add_closed form_f_dx form_g_dx F Hadd) as (_ & Hnd & _ & Hnext & _).
  split; [exact Hnd|apply Hnext].
Defined.

Lemma Form_add_empty_witness :
  NoDup (keys (integrals form_f_dx))
  ∧ Form_add form_f_dx (new_Form []) = Ok (new_Form (integrals form_f_dx))
  ∧ Form_add (new_Form []) form_f_dx = Ok (new_Form (integrals form_f_dx)).
Proof.
  split; [apply NoDup_keys_singleton|].
  destruct (Form_add_empty form_f_dx (NoDup_keys_singleton _)) as (Hr & Hl & _).
  split; [exact Hr|exact Hl].
Defined.

(** [f*dx - g*dx] has the single integrand [f + (-g)]. *)
Lemma Form_sub_merges_witness :
  (NoDup (keys (integrals form_f_dx)) ∧ NoDup (keys (integrals form_g_dx)))
  ∧ ∃ F, Form_sub form_f_dx form_g_dx = Ok F
         ∧ integrals F =
             [ {| _integrand :=
                    Operator "Sum" [coefficient "f"; Operator "Neg" [coefficient "g"]];
                  _measure := dx0 |} ].
Proof.
  split; [split; apply NoDup_keys_singleton|].
  destruct (Form_sub_merges form_f_dx form_g_dx
              (NoDup_keys_singleton _) (NoDup_keys_singleton _))
    as (_ & _ & F & Hsub & Hint & _).
  exists F. split; [exact Hsub|]. rewrite Hint. vm_compute. reflexivity.
Defined.

Lemma Form_repr_memo_witness :
  repr_memo_ok form_f_dx
  ∧ (Form_repr form_f_dx).1 = "Form([f*cell])"
  ∧ Form_repr (Form_repr form_f_dx).2 = Form_repr form_f_dx.
Proof.
  assert (repr_memo_ok form_f_dx) as Hok by (left; reflexivity).
  split; [exact Hok|].
  pose proof (Form_repr_memo form_f_dx Hok) as Hm.
  destruct (Form_repr form_f_dx) as [r self'] eqn:Hr.
  destruct Hm as (Hstr & _ & _ & _ & Hagain & _).
  split; [rewrite Hstr; reflexivity|exact Hagain].
Defined.

(** Two forms with the same integral are equal although one of them
    carries form data. *)
Lemma Form_eq_spec_witness :
  let preprocessed : Form (Expr Z) Measure unit :=
    {| _integrals := _integrals form_f_dx;
       _str := None; _repr := None; _hash := None;
       _form_data := Some tt; _is_preprocessed := false |} in
  (repr_memo_ok form_f_dx ∧ repr_memo_ok preprocessed)
  ∧ (Form_eq form_f_dx (Inst preprocessed)).1.1 = true.
Proof.
  intros preprocessed.
  assert (repr_memo_ok form_f_dx) as Ha by (left; reflexivity).
  assert (repr_memo_ok preprocessed) as Hb by (left; reflexivity).
  split; [by split|].
  exact (proj1 (proj2 (Form_eq_spec form_f_dx preprocessed Ha Hb)) eq_refl).
Defined.
